(** * Hidden-range bookkeeping of the zoom feature

    A shallow embedding of [src/logic/KeepOnlyZoomedContentVisible.ts]:
    the state field that keeps the hidden block ranges ([zoomStateField]),
    the two queries of the class ([calculateHiddenContentRanges],
    [calculateVisibleContentRange]) and its two commands
    ([keepOnlyZoomedContentVisible], [showAllContent]).

    Offsets are JavaScript numbers holding document offsets; they are
    modelled as [Z].  Lengths of document sections are [N]. *)

From Stdlib Require Import ZArith NArith List Bool String Lia Permutation Sorted.
Import ListNotations.
Local Open Scope Z_scope.

(* ================================================================== *)
(** * The host editor: documents, change batches, range sets          *)
(* ================================================================== *)

(** A plain [{from, to}] object: the payload of a zoom-in effect, an
    element of the array of hidden ranges, the visible range. *)
Record Span : Type := mkSpan { from : Z; to : Z }.

Module Text.

(** A UTF-16 code unit of a JavaScript string. *)
Definition CodeUnit : Type := N.

(** Modelled from the spec: the host's document ([Text] of the editor
    library, an external collaborator): an ordered sequence of
    characters addressed by zero-based offsets.  It always has at least
    one line; consecutive lines are separated by one line-break
    character, which counts in [length]. *)
Record t : Type := mk { firstLine : list CodeUnit; moreLines : list (list CodeUnit) }.

Definition lineLength (l : list CodeUnit) : Z := Z.of_nat (List.length l).

Definition length (d : t) : Z :=
  fold_left (fun acc l => acc + 1 + lineLength l) (moreLines d)
            (lineLength (firstLine d)).

(** The [Line] object returned by [lineAt]. *)
Record Line : Type := mkLine { lineFrom : Z; lineTo : Z; text : list CodeUnit }.

Fixpoint lineInner (cur : list CodeUnit) (rest : list (list CodeUnit))
         (start pos : Z) : Line :=
  let stop := start + lineLength cur in
  match rest with
  | [] => mkLine start stop cur
  | next :: rest' =>
      if pos <=? stop then mkLine start stop cur
      else lineInner next rest' (stop + 1) pos
  end.

(** Modelled from the spec: [doc.lineAt(pos)] of the host, the line
    containing offset [pos].  No line contains an offset outside
    [0, length]; the host raises a [RangeError] there, rendered as
    [None]. *)
Definition lineAt (d : t) (pos : Z) : option Line :=
  if (pos <? 0) || (length d <? pos) then None
  else Some (lineInner (firstLine d) (moreLines d) 0 pos).

(** A one-line document of [n] copies of the letter [a]. *)
Definition filler (n : nat) : t := mk (repeat 97%N n) [].

End Text.

Module ChangeDesc.

(** Modelled from the spec: a change batch of the host (section 3, the
    ordered [(deleteFrom, deleteTo, insertText)] operations applied
    atomically), in the sectioned form in which the host hands it to
    [map]: the old document is cut into consecutive sections, each
    either kept ([Keep len]) or replaced ([Replace len ins]: [len] old
    characters deleted, [ins] new ones inserted in their place).  The
    operation [(f, t, s)] is the section [Replace (t - f) (length s)]
    that starts at old offset [f]. *)
Inductive Part : Type :=
| Keep (len : N)
| Replace (len ins : N).

Definition t : Type := list Part.

(** Length of the document the batch applies to. *)
Definition length (c : t) : Z :=
  fold_right (fun s acc => match s with
                           | Keep len => Z.of_N len + acc
                           | Replace len _ => Z.of_N len + acc
                           end) 0 c.

(** Length of the document the batch produces. *)
Definition newLength (c : t) : Z :=
  fold_right (fun s acc => match s with
                           | Keep len => Z.of_N len + acc
                           | Replace _ ins => Z.of_N ins + acc
                           end) 0 c.

(** The batch that changes nothing in a document of [len] characters. *)
Definition empty (len : N) : t := [Keep len].

(** The batch that inserts [n] characters at offset [p] of a document of
    [len] characters. *)
Definition insertion (p n len : N) : t :=
  [Keep p; Replace 0 n; Keep (len - p)].

(** Modelled from the spec: the host's position mapping (section 4.1
    [map], section 9: the utility that translates a single offset
    forward through the operations).  [posA] is the old offset at which
    [parts] starts and [posB] the new offset of the same place.  A
    change before [pos] shifts it; a position inside a replaced section
    collapses to the start of the replacement when [assoc < 0] and to
    its end otherwise; an insertion exactly at [pos] leaves [pos] before
    the inserted text when [assoc < 0] and moves it after otherwise.
    Offsets past the old document are not positions of it (a caller
    contract violation); they are shifted by the batch's net change. *)
Fixpoint mapPosFrom (parts : t) (posA posB pos assoc : Z) : Z :=
  match parts with
  | [] => posB + (pos - posA)
  | Keep len :: rest =>
      let endA := posA + Z.of_N len in
      if pos <? endA then posB + (pos - posA)
      else mapPosFrom rest endA (posB + Z.of_N len) pos assoc
  | Replace len ins :: rest =>
      let endA := posA + Z.of_N len in
      if (pos <? endA) || ((pos =? endA) && (assoc <? 0) && (len =? 0)%N)
      then (if (pos =? posA) || (assoc <? 0) then posB else posB + Z.of_N ins)
      else mapPosFrom rest endA (posB + Z.of_N ins) pos assoc
  end.

Definition mapPos (c : t) (pos assoc : Z) : Z := mapPosFrom c 0 0 pos assoc.

End ChangeDesc.

Module Decoration.

(** Modelled from the spec: the tag of a hidden segment (section 3:
    block-level).  The host's replacing decorations cover the positions
    on their two sides exactly when they are block decorations, so text
    typed at either end of a hidden block segment becomes part of it. *)
Record t : Type := mk { block : bool; inclusiveStart : bool; inclusiveEnd : bool }.

(** [Decoration.replace({ block })]. *)
Definition replace (block : bool) : t := mk block block block.

(** The association side used for each boundary when mapping. *)
Definition startSide (d : t) : Z := if inclusiveStart d then -1 else 1.
Definition endSide (d : t) : Z := if inclusiveEnd d then 1 else -1.

End Decoration.

Module Range.

(** A marked range of a range set. *)
Record t : Type := mk { from : Z; to : Z; value : Decoration.t }.

End Range.

Module RangeSet.

(** Modelled from the spec: the Range Set Store (section 4.1), the
    host's [RangeSet]; the list holds the ranges in iteration order. *)
Definition t : Type := list Range.t.

(** [create() -> empty set]. *)
Definition empty : t := [].

Definition mapRange (c : ChangeDesc.t) (r : Range.t) : Range.t :=
  let v := Range.value r in
  Range.mk (ChangeDesc.mapPos c (Range.from r) (Decoration.startSide v))
           (ChangeDesc.mapPos c (Range.to r) (Decoration.endSide v))
           v.

(** Modelled from the spec: [map(changes) -> new set] (section 4.1):
    every boundary of every segment is translated through the batch,
    without altering segment count or tag. *)
Definition map (c : ChangeDesc.t) (s : t) : t := List.map (mapRange c) s.

(** The argument of [update]: ranges to add, and an optional filter
    deciding which of the present ranges stay. *)
Record UpdateSpec : Type :=
  mkSpec { add : list Range.t;
           filter : option (Z -> Z -> Decoration.t -> bool) }.

(** The place of an added range: before the first present range that
    does not start earlier. *)
Fixpoint insert (r : Range.t) (s : t) : t :=
  match s with
  | [] => [r]
  | cur :: rest =>
      if (Range.from r <? Range.from cur)
         || ((Range.from r =? Range.from cur)
             && (Decoration.startSide (Range.value r)
                   <=? Decoration.startSide (Range.value cur)))
      then r :: cur :: rest
      else cur :: insert r rest
  end.

(** Modelled from the spec: [replace]/[update] of the store (section
    4.1): the filter discards present ranges, then the added ranges
    take their place in ascending order of [from].  The store of the
    spec is total; the host's own store agrees with it on the ranges of
    a document, and differs outside them: it orders two ranges that
    start at the same offset by their ends, and it cannot hold a range
    that starts a billion or more below zero. *)
Definition update (spec : UpdateSpec) (s : t) : t :=
  let kept := match filter spec with
              | None => s
              | Some keep =>
                  List.filter (fun r => keep (Range.from r) (Range.to r) (Range.value r)) s
              end in
  fold_left (fun acc r => insert r acc) (add spec) kept.

End RangeSet.

(** Modelled from the spec: [rangeSetToArray] of [./utils/rangeSetToArray]
    (not among the sources), [toOrderedList] of section 4.1: the segments
    in iteration order, each as a plain [(from, to)]. *)
Definition rangeSetToArray (rs : RangeSet.t) : list Span :=
  List.map (fun r => mkSpan (Range.from r) (Range.to r)) rs.

(* ================================================================== *)
(** * The state field                                                  *)
(* ================================================================== *)

Definition DecorationSet : Type := RangeSet.t.

Inductive ScrollY : Type := yStart | yCenter.

(** The effects a transaction can carry: the two of [./utils/effects],
    the host's scroll request, and any effect of another extension. *)
Inductive StateEffect : Type :=
| zoomInEffect (value : Span)
| zoomOutEffect
| EditorView_scrollIntoView (y : ScrollY)
| otherEffect (tag : nat).

Record Transaction : Type :=
  mkTransaction { changes : ChangeDesc.t;
                  effects : list StateEffect;
                  newDoc : Text.t }.

(** [const zoomMarkHidden = Decoration.replace({ block: true })]. *)
Definition zoomMarkHidden : Decoration.t := Decoration.replace true.

(** [zoomMarkHidden.range(from, to)]. *)
Definition zoomMarkHidden_range (from to : Z) : Range.t :=
  Range.mk from to zoomMarkHidden.

(** [value.update({ filter: () => false })]. *)
Definition clearAll (value : DecorationSet) : DecorationSet :=
  RangeSet.update (RangeSet.mkSpec [] (Some (fun _ _ _ => false))) value.

(** [value.update({ add: [r] })]. *)
Definition addOne (r : Range.t) (value : DecorationSet) : DecorationSet :=
  RangeSet.update (RangeSet.mkSpec [r] None) value.

(** The body of [for (const e of tr.effects)] in [update]. *)
Definition processEffect (tr : Transaction) (value : DecorationSet)
           (e : StateEffect) : DecorationSet :=
  let value :=
    match e with
    | zoomInEffect v =>
        let value := clearAll value in
        let value :=
          if 0 <? from v
          then addOne (zoomMarkHidden_range 0 (from v - 1)) value
          else value in
        let value :=
          if to v <? Text.length (newDoc tr)
          then addOne (zoomMarkHidden_range (to v + 1) (Text.length (newDoc tr))) value
          else value in
        value
    | _ => value
    end in
  match e with
  | zoomOutEffect => clearAll value
  | _ => value
  end.

Module zoomStateField.

(** [create: () => Decoration.none]. *)
Definition create : DecorationSet := RangeSet.empty.

(** [update: (value, tr) => ...]. *)
Definition update (value : DecorationSet) (tr : Transaction) : DecorationSet :=
  let value := RangeSet.map (changes tr) value in
  fold_left (processEffect tr) (effects tr) value.

End zoomStateField.

(** The part of the host's editor state the class reads. *)
Record EditorState : Type :=
  mkState { doc : Text.t; field : DecorationSet }.

(** Modelled from the spec: the host applying a transaction to a state
    (section 4.2: the reducer's output is fed back as the new owned
    value): the document becomes [tr.newDoc] and the field's [update]
    computes its new value. *)
Definition applyTransaction (st : EditorState) (tr : Transaction) : EditorState :=
  mkState (newDoc tr) (zoomStateField.update (field st) tr).

(* ================================================================== *)
(** * The queries                                                      *)
(* ================================================================== *)

Definition calculateHiddenContentRanges (state : EditorState) : list Span :=
  rangeSetToArray (field state).

(** [null] is [None]. *)
Definition calculateVisibleContentRange (state : EditorState) : option Span :=
  let hidden := calculateHiddenContentRanges state in
  match hidden with
  | [a] =>
      if from a =? 0
      then Some (mkSpan (to a + 1) (Text.length (doc state)))
      else Some (mkSpan 0 (from a - 1))
  | [a; b] => Some (mkSpan (to a + 1) (from b - 1))
  | _ => None
  end.

(* ================================================================== *)
(** * The commands                                                     *)
(* ================================================================== *)

(** The code units that the class [\s] of a JavaScript regular
    expression matches. *)
Definition isWhiteSpace (c : Text.CodeUnit) : bool :=
  ((9 <=? c) && (c <=? 13) || (c =? 32) || (c =? 160) || (c =? 5760)
   || (8192 <=? c) && (c <=? 8202) || (c =? 8232) || (c =? 8233)
   || (c =? 8239) || (c =? 8287) || (c =? 12288) || (c =? 65279))%N.

Fixpoint leadingWhiteSpace (s : list Text.CodeUnit) : list Text.CodeUnit :=
  match s with
  | c :: rest => if isWhiteSpace c then c :: leadingWhiteSpace rest else []
  | [] => []
  end.

(** [line.text.match] with the expression for the leading white space:
    the match object is rendered by its first capture group; the
    expression matches every string. *)
Definition matchIndent (s : list Text.CodeUnit) : option (list Text.CodeUnit) :=
  Some (leadingWhiteSpace s).

(** The element [view.dom.closest(".cm-editor")]: whether it carries the
    class [zoom-plugin-remove-indent], and its style property
    [--zoom-indent-chars]. *)
Record EditorEl : Type :=
  mkEl { removeIndentClass : bool; zoomIndentChars : option Z }.

(** The view: its state, its editor element ([None]: no such ancestor)
    and, to observe the commands, the effects of every transaction
    dispatched so far, oldest first. *)
Record EditorView : Type :=
  mkView { state : EditorState;
           editorEl : option EditorEl;
           dispatched : list (list StateEffect) }.

Record LogEntry : Type :=
  mkLog { method : string; message : string; logArgs : list Z }.

(** What the commands act on: the view and the logger's output. *)
Record World : Type := mkWorld { view : EditorView; logged : list LogEntry }.

Inductive Exception : Type := RangeError.

(** A command returns normally with a value, or raises; either way it
    leaves a world behind. *)
Inductive Result (A : Type) : Type :=
| Ok (a : A) (w : World)
| Throw (e : Exception) (w : World).
Arguments Ok {A} a w.
Arguments Throw {A} e w.

(** Commands thread the world and may raise. *)
Definition Cmd (A : Type) : Type := World -> Result A.

Definition ret {A} (a : A) : Cmd A := fun w => Ok a w.

Definition bind {A B} (m : Cmd A) (k : A -> Cmd B) : Cmd B :=
  fun w => match m w with
           | Ok a w' => k a w'
           | Throw e w' => Throw e w'
           end.

Definition throw {A} (e : Exception) : Cmd A := fun w => Throw e w.

Declare Scope cmd_scope.
Delimit Scope cmd_scope with cmd.
Notation "x <- m ;; k" := (bind m (fun x => k))
  (at level 100, m at next level, right associativity) : cmd_scope.
Notation "m ;;; k" := (bind m (fun _ => k))
  (at level 100, right associativity) : cmd_scope.

Definition getView : Cmd EditorView := fun w => Ok (view w) w.

Definition setView (v : EditorView) : Cmd unit :=
  fun w => Ok tt (mkWorld v (logged w)).

(** [this.logger.log(method, message, ...args)]. *)
Definition logger_log (method message : string) (args : list Z) : Cmd unit :=
  fun w => Ok tt (mkWorld (view w) (logged w ++ [mkLog method message args])).

(** Modelled from the spec: [view.dispatch({ effects })] of the host
    (section 4.4: the signal goes to the state machine through the host's
    dispatch): a transaction without changes is applied to the state. *)
Definition dispatch (effs : list StateEffect) : Cmd unit :=
  (v <- getView ;;
   let st := state v in
   let tr := mkTransaction (ChangeDesc.empty (Z.to_N (Text.length (doc st))))
                           effs (doc st) in
   setView (mkView (applyTransaction st tr) (editorEl v) (dispatched v ++ [effs])))%cmd.

Definition calculateIndentLevel (from : Z) : Cmd Z :=
  (v <- getView ;;
   match Text.lineAt (doc (state v)) from with
   | None => throw RangeError
   | Some line =>
       match matchIndent (Text.text line) with
       | Some spaces =>
           let indentChars := Z.of_nat (List.length spaces) in
           ret indentChars
       | None => ret 0
       end
   end)%cmd.

Definition applyIndentRemoval (indentChars : Z) : Cmd unit :=
  (if 0 <? indentChars
   then
     v <- getView ;;
     match editorEl v with
     | Some _ =>
         setView (mkView (state v) (Some (mkEl true (Some indentChars))) (dispatched v)) ;;;
         logger_log "KeepOnlyZoomedContent:applyIndentRemoval"
                    "applying indent removal" [indentChars]
     | None => ret tt
     end
   else ret tt)%cmd.

Definition removeIndentRemoval : Cmd unit :=
  (v <- getView ;;
   match editorEl v with
   | Some _ =>
       setView (mkView (state v) (Some (mkEl false None)) (dispatched v)) ;;;
       logger_log "KeepOnlyZoomedContent:removeIndentRemoval"
                  "removing indent removal" []
   | None => ret tt
   end)%cmd.

(** An optional boolean property of an object literal: the object has
    no such property, or has it with the value [undefined], or has it
    with a boolean. *)
Inductive OptionalFlag : Type :=
| absent
| undefined
| given (b : bool).

(** [options: { scrollIntoView?: boolean }]. *)
Record Options : Type := mkOptions { scrollIntoView : OptionalFlag }.

(** The default [options = {}]. *)
Definition noOptions : Options := mkOptions absent.

(** The property [scrollIntoView] of
    [{ ...{ scrollIntoView: true }, ...options }]: a property of
    [options] overrides the default also when its value is [undefined]
    ([None]). *)
Definition spreadOverDefault (flag : OptionalFlag) : option bool :=
  match flag with
  | absent => Some true
  | undefined => None
  | given b => Some b
  end.

(** The truth value that [if] gives to a boolean or [undefined]. *)
Definition truthy (v : option bool) : bool :=
  match v with
  | Some true => true
  | _ => false
  end.

Definition keepOnlyZoomedContentVisible (from to : Z) (options : Options) : Cmd unit :=
  (let scrollIntoView := spreadOverDefault (scrollIntoView options) in
   let effect := zoomInEffect (mkSpan from to) in
   logger_log "KeepOnlyZoomedContent:keepOnlyZoomedContentVisible"
              "keep only zoomed content visible" [from; to] ;;;
   indentChars <- calculateIndentLevel from ;;
   applyIndentRemoval indentChars ;;;
   dispatch [effect] ;;;
   if truthy scrollIntoView
   then dispatch [EditorView_scrollIntoView yStart]
   else ret tt)%cmd.

Definition showAllContent : Cmd unit :=
  (logger_log "KeepOnlyZoomedContent:showAllContent" "show all content" [] ;;;
   removeIndentRemoval ;;;
   dispatch [zoomOutEffect] ;;;
   dispatch [EditorView_scrollIntoView yCenter])%cmd.

(* ================================================================== *)
(** * Vocabulary of the properties                                     *)
(* ================================================================== *)

(** The prefix and the suffix segment of a zoom to [(from, to)] in a
    document of [L] characters. *)
Definition prefixSpan (from : Z) : Span := mkSpan 0 (from - 1).
Definition suffixSpan (to L : Z) : Span := mkSpan (to + 1) L.

(** Two half-open segments overlap when they share an offset. *)
Definition overlap (a b : Span) : Prop :=
  exists x, (from a <= x < to a) /\ (from b <= x < to b).

(** No two segments of the list overlap. *)
Definition nonOverlapping (l : list Span) : Prop :=
  ForallOrdPairs (fun a b => ~ overlap a b) l.

(** The segments are listed in ascending order of [from]. *)
Definition ascending (l : list Span) : Prop :=
  Sorted (fun a b => from a <= from b) l.

(** The values of the field that a run of updates produces from the
    initial value, when every transaction of the run satisfies [P]. *)
Inductive reachableVia (P : Transaction -> Prop) : DecorationSet -> Prop :=
| reach_create : reachableVia P zoomStateField.create
| reach_update (value : DecorationSet) (tr : Transaction) :
    reachableVia P value -> P tr ->
    reachableVia P (zoomStateField.update value tr).

Definition reachable : DecorationSet -> Prop := reachableVia (fun _ => True).

(** Every zoom-in effect of the transaction has [from <= to]. *)
Definition orderedZooms (tr : Transaction) : bool :=
  forallb (fun e => match e with
                    | zoomInEffect v => from v <=? to v
                    | _ => true
                    end) (effects tr).

(** The batch covers the gap between a segment that ends at [t1] and a
    segment that starts at [f2 >= t1]: one of its sections puts new text
    in the place of a stretch that starts before [t1] and ends after
    [f2], or inserts new text exactly where the two segments touch.
    [posA] is the old offset at which [parts] starts. *)
Fixpoint coversGapFrom (parts : ChangeDesc.t) (posA t1 f2 : Z) : bool :=
  match parts with
  | [] => false
  | ChangeDesc.Keep len :: rest => coversGapFrom rest (posA + Z.of_N len) t1 f2
  | ChangeDesc.Replace len ins :: rest =>
      let endA := posA + Z.of_N len in
      ((0 <? Z.of_N ins)
       && (((posA <? t1) && (f2 <? endA))
           || ((len =? 0)%N && (t1 =? posA) && (f2 =? posA))))
      || coversGapFrom rest endA t1 f2
  end.

Definition coversGap (c : ChangeDesc.t) (t1 f2 : Z) : bool :=
  coversGapFrom c 0 t1 f2.

(** The batch spares the field: the field has fewer than two segments,
    or the batch does not cover the gap between its two segments. *)
Definition sparesGap (value : DecorationSet) (c : ChangeDesc.t) : bool :=
  match value with
  | [r1; r2] => negb (coversGap c (Range.to r1) (Range.from r2))
  | _ => true
  end.

(** A transaction that is careful with the field it finds: its zoom-in
    ranges are ordered and its change batch spares the field. *)
Definition careful (value : DecorationSet) (tr : Transaction) : Prop :=
  orderedZooms tr = true /\ sparesGap value (changes tr) = true.

(** The values of the field that a run of careful updates produces from
    the initial value. *)
Inductive reachableCarefully : DecorationSet -> Prop :=
| careful_create : reachableCarefully zoomStateField.create
| careful_update (value : DecorationSet) (tr : Transaction) :
    reachableCarefully value -> careful value tr ->
    reachableCarefully (zoomStateField.update value tr).

(** A run of the field over a list of transactions. *)
Definition runUpdates (value : DecorationSet) (trs : list Transaction) : DecorationSet :=
  fold_left zoomStateField.update trs value.

(** Every range of the field carries the mark of a hidden segment. *)
Definition hiddenMarks (value : DecorationSet) : Prop :=
  Forall (fun r => Range.value r = zoomMarkHidden) value.

(** The invariant of the field: at most two ranges, all carrying the
    mark of a hidden segment, listed in ascending order of [from]. *)
Definition kept (value : DecorationSet) : Prop :=
  (List.length value <= 2)%nat
  /\ hiddenMarks value
  /\ ascending (rangeSetToArray value).

(** At most two ranges, and when there are two the first ends, at a
    non-negative offset, no later than the second starts. *)
Definition apart (value : DecorationSet) : Prop :=
  match value with
  | [] | [_] => True
  | [r1; r2] => 0 <= Range.to r1 <= Range.from r2
  | _ => False
  end.

(** A world whose document is [n] letters on one line, with nothing
    hidden, dispatched or logged. *)
Definition blankWorld (n : nat) : World :=
  mkWorld (mkView (mkState (Text.filler n) zoomStateField.create)
                  (Some (mkEl false None)) [])
          [].

(** The range [(from, to)] lies in a document of [L] characters. *)
Definition validRange (from to L : Z) : Prop := 0 <= from <= to /\ to <= L.

(** The effects dispatched by a command: those in the trace of the world
    it returns that were not in the trace of the world it started in. *)
Definition newlyDispatched (w w' : World) : list StateEffect :=
  List.concat (skipn (List.length (dispatched (view w))) (dispatched (view w'))).

(** What section 4.4 asks of [zoomToRange]: a zoom-in signal is issued
    only for a range that lies in the document, whether the command
    rejected a bad range (raising) or clamped it. *)
Definition validatesItsRange : Prop :=
  forall (w w' : World) (a b : Z) (options : Options),
    keepOnlyZoomedContentVisible a b options w = Ok tt w' ->
    forall v, In (zoomInEffect v) (newlyDispatched w w') ->
              validRange (from v) (to v) (Text.length (doc (state (view w)))).

(* ================================================================== *)
(** * Vocabulary of the further properties                             *)
(* ================================================================== *)

(** The two effects the reducer reacts to. *)
Definition isZoomEffect (e : StateEffect) : bool :=
  match e with
  | zoomInEffect _ | zoomOutEffect => true
  | _ => false
  end.

Definition noZoomEffect (effs : list StateEffect) : bool :=
  forallb (fun e => negb (isZoomEffect e)) effs.

(** The batch that deletes the characters [p, q) of a document of [len]
    characters. *)
Definition deletion (p q len : N) : ChangeDesc.t :=
  [ChangeDesc.Keep p; ChangeDesc.Replace (q - p) 0; ChangeDesc.Keep (len - q)].

(** A range that is not reversed. *)
Definition orderedRange (r : Range.t) : Prop := Range.from r <= Range.to r.

(** A range of a document of [L] characters. *)
Definition inDocument (L : Z) (r : Range.t) : Prop :=
  0 <= Range.from r /\ Range.from r <= Range.to r /\ Range.to r <= L.

(** A transaction as the host builds it for the state [st]: its batch
    applies to the document of [st] and produces the new document, and
    the zoom-in effects it carries name ranges of the new document. *)
Definition fits (st : EditorState) (tr : Transaction) : Prop :=
  ChangeDesc.length (changes tr) = Text.length (doc st)
  /\ ChangeDesc.newLength (changes tr) = Text.length (newDoc tr)
  /\ Forall (fun e => match e with
                      | zoomInEffect v =>
                          validRange (from v) (to v) (Text.length (newDoc tr))
                      | _ => True
                      end) (effects tr).

(** The states reached from an idle state by such transactions. *)
Inductive reachableState : EditorState -> Prop :=
| reach_idle (d : Text.t) : reachableState (mkState d zoomStateField.create)
| reach_apply (st : EditorState) (tr : Transaction) :
    reachableState st -> fits st tr -> reachableState (applyTransaction st tr).

(** Offset [x] lies in one of the listed segments. *)
Definition hiddenAt (hidden : list Span) (x : Z) : Prop :=
  exists s, In s hidden /\ from s <= x < to s.

(** The entries the commands write to the log. *)
Definition zoomLog (a b : Z) : LogEntry :=
  mkLog "KeepOnlyZoomedContent:keepOnlyZoomedContentVisible"
        "keep only zoomed content visible" [a; b].
Definition indentLog (n : Z) : LogEntry :=
  mkLog "KeepOnlyZoomedContent:applyIndentRemoval" "applying indent removal" [n].
Definition showAllLog : LogEntry :=
  mkLog "KeepOnlyZoomedContent:showAllContent" "show all content" [].
Definition unindentLog : LogEntry :=
  mkLog "KeepOnlyZoomedContent:removeIndentRemoval" "removing indent removal" [].

(** The number of white-space code units that start the line of [d]
    containing offset [pos] ([0] when there is no such line). *)
Definition indentAt (d : Text.t) (pos : Z) : Z :=
  match Text.lineAt d pos with
  | Some line => Z.of_nat (List.length (leadingWhiteSpace (Text.text line)))
  | None => 0
  end.

(** The editor element once an indentation of [n] has been applied. *)
Definition hinted (n : Z) (el : option EditorEl) : option EditorEl :=
  if 0 <? n
  then match el with
       | Some _ => Some (mkEl true (Some n))
       | None => None
       end
  else el.

(** The editor element once the indentation has been removed. *)
Definition unhinted (el : option EditorEl) : option EditorEl :=
  match el with
  | Some _ => Some (mkEl false None)
  | None => None
  end.

(** The transaction of [dispatch]: no changes to the document [d]. *)
Definition effectsOnly (d : Text.t) (effs : list StateEffect) : Transaction :=
  mkTransaction (ChangeDesc.empty (Z.to_N (Text.length d))) effs d.

(* ================================================================== *)
(** * Position mapping                                                 *)
(* ================================================================== *)

Ltac split_tests :=
  repeat match goal with
         | |- context [?a <? ?b] => destruct (Z.ltb_spec a b)
         | |- context [?a <=? ?b] => destruct (Z.leb_spec a b)
         | |- context [?a =? ?b] => destruct (Z.eqb_spec a b)
         | |- context [N.eqb ?a ?b] => destruct (N.eqb_spec a b)
         end; cbn [orb andb negb].

(** A position at or after the start of the remaining sections is mapped
    at or after the image of that start. *)
Lemma mapPosFrom_lower (parts : ChangeDesc.t) :
  forall posA posB pos assoc,
    posA <= pos -> posB <= ChangeDesc.mapPosFrom parts posA posB pos assoc.
Proof.
  induction parts as [|[len|len ins] rest IH]; intros posA posB pos assoc Hle;
    cbn [ChangeDesc.mapPosFrom].
  - lia.
  - pose proof (IH (posA + Z.of_N len) (posB + Z.of_N len) pos assoc) as IH'.
    split_tests; lia.
  - pose proof (IH (posA + Z.of_N len) (posB + Z.of_N ins) pos assoc) as IH'.
    split_tests; lia.
Qed.

(** With the association of a start boundary, mapping is monotone. *)
Lemma mapPosFrom_mono (parts : ChangeDesc.t) :
  forall posA posB p q,
    p <= q ->
    ChangeDesc.mapPosFrom parts posA posB p (-1)
    <= ChangeDesc.mapPosFrom parts posA posB q (-1).
Proof.
  induction parts as [|[len|len ins] rest IH]; intros posA posB p q Hpq;
    cbn [ChangeDesc.mapPosFrom].
  - lia.
  - pose proof (IH (posA + Z.of_N len) (posB + Z.of_N len) p q Hpq) as IH'.
    pose proof (mapPosFrom_lower rest (posA + Z.of_N len) (posB + Z.of_N len) q (-1)) as Hlow.
    split_tests; lia.
  - pose proof (IH (posA + Z.of_N len) (posB + Z.of_N ins) p q Hpq) as IH'.
    pose proof (mapPosFrom_lower rest (posA + Z.of_N len) (posB + Z.of_N ins) q (-1)) as Hlow.
    split_tests; lia.
Qed.

(** With the association of an end boundary, mapping is monotone on
    the positions at or after the start of the remaining sections. *)
Lemma mapPosFrom_mono_end (parts : ChangeDesc.t) :
  forall posA posB p q,
    posA <= p -> p <= q ->
    ChangeDesc.mapPosFrom parts posA posB p 1
    <= ChangeDesc.mapPosFrom parts posA posB q 1.
Proof.
  induction parts as [|[len|len ins] rest IH]; intros posA posB p q Hp Hpq;
    cbn [ChangeDesc.mapPosFrom].
  - lia.
  - pose proof (IH (posA + Z.of_N len) (posB + Z.of_N len) p q) as IH'.
    pose proof (mapPosFrom_lower rest (posA + Z.of_N len) (posB + Z.of_N len) q 1) as Hlow.
    split_tests; lia.
  - pose proof (IH (posA + Z.of_N len) (posB + Z.of_N ins) p q) as IH'.
    pose proof (mapPosFrom_lower rest (posA + Z.of_N len) (posB + Z.of_N ins) q 1) as Hlow.
    split_tests; lia.
Qed.

(** A start boundary at the very start of the remaining sections stays
    there. *)
Lemma mapPosFrom_at_start (parts : ChangeDesc.t) :
  forall posA posB, ChangeDesc.mapPosFrom parts posA posB posA (-1) = posB.
Proof.
  induction parts as [|[len|len ins] rest IH]; intros posA posB;
    cbn [ChangeDesc.mapPosFrom].
  - lia.
  - destruct (Z.ltb_spec posA (posA + Z.of_N len)) as [Hlt|Hge]; [lia|].
    replace (posA + Z.of_N len) with posA by lia.
    replace (posB + Z.of_N len) with posB by lia. apply IH.
  - split_tests; lia.
Qed.

(** A batch can only cover a gap whose first end lies at or after the
    start of its sections. *)
Lemma coversGapFrom_start (parts : ChangeDesc.t) :
  forall posA t1 f2, coversGapFrom parts posA t1 f2 = true -> posA <= t1.
Proof.
  induction parts as [|[len|len ins] rest IH]; intros posA t1 f2;
    cbn [coversGapFrom].
  - discriminate.
  - intro H. apply IH in H. lia.
  - intro Hc. apply orb_true_iff in Hc as [Hc|Hc].
    + apply andb_true_iff in Hc as [_ Hc]. revert Hc. split_tests; intro Hc;
        try discriminate; lia.
    + apply IH in Hc. lia.
Qed.

(** Through a batch that does not cover the gap between them, an end
    boundary stays at or before a start boundary that lay at or after
    it. *)
Lemma mapPosFrom_spared (parts : ChangeDesc.t) :
  forall posA posB t1 f2,
    posA <= t1 -> t1 <= f2 ->
    coversGapFrom parts posA t1 f2 = false ->
    ChangeDesc.mapPosFrom parts posA posB t1 1
    <= ChangeDesc.mapPosFrom parts posA posB f2 (-1).
Proof.
  induction parts as [|[len|len ins] rest IH]; intros posA posB t1 f2 Ht1 Hgap Hno;
    cbn [ChangeDesc.mapPosFrom]; cbn [coversGapFrom] in Hno.
  - lia.
  - pose proof (fun Hle => IH (posA + Z.of_N len) (posB + Z.of_N len) t1 f2 Hle Hgap Hno)
      as IH'.
    pose proof (mapPosFrom_lower rest (posA + Z.of_N len) (posB + Z.of_N len) f2 (-1)) as Hlow.
    split_tests; lia.
  - apply orb_false_iff in Hno as [Hhere Hrest].
    pose proof (fun Hle => IH (posA + Z.of_N len) (posB + Z.of_N ins) t1 f2 Hle Hgap Hrest)
      as IH'.
    pose proof (mapPosFrom_lower rest (posA + Z.of_N len) (posB + Z.of_N ins) f2 (-1)) as Hlow.
    destruct (Z.eq_dec f2 (posA + Z.of_N len)) as [Hend|Hend].
    + (* the start boundary sits at the end of this section *)
      pose proof (mapPosFrom_at_start rest (posA + Z.of_N len) (posB + Z.of_N ins)) as Hat.
      rewrite <- Hend in Hat at 2.
      revert Hhere. split_tests; intro Hhere; try discriminate; lia.
    + revert Hhere. split_tests; intro Hhere; try discriminate; lia.
Qed.

(** Through a batch that covers the gap between them, the end boundary
    passes the start boundary. *)
Lemma mapPosFrom_covered (parts : ChangeDesc.t) :
  forall posA posB t1 f2,
    t1 <= f2 ->
    coversGapFrom parts posA t1 f2 = true ->
    ChangeDesc.mapPosFrom parts posA posB f2 (-1)
    < ChangeDesc.mapPosFrom parts posA posB t1 1.
Proof.
  induction parts as [|[len|len ins] rest IH]; intros posA posB t1 f2 Hgap Hyes;
    cbn [ChangeDesc.mapPosFrom]; cbn [coversGapFrom] in Hyes.
  - discriminate.
  - pose proof (coversGapFrom_start _ _ _ _ Hyes) as Hstart.
    pose proof (IH (posA + Z.of_N len) (posB + Z.of_N len) t1 f2 Hgap Hyes) as IH'.
    split_tests; lia.
  - pose proof (mapPosFrom_lower rest (posA + Z.of_N len) (posB + Z.of_N ins) t1 1) as Hlow.
    destruct (coversGapFrom rest (posA + Z.of_N len) t1 f2) eqn:Hrest.
    + pose proof (coversGapFrom_start _ _ _ _ Hrest) as Hstart.
      pose proof (IH (posA + Z.of_N len) (posB + Z.of_N ins) t1 f2 Hgap Hrest) as IH'.
      destruct (Z.eq_dec f2 (posA + Z.of_N len)) as [Hend|Hend].
      * pose proof (mapPosFrom_at_start rest (posA + Z.of_N len) (posB + Z.of_N ins)) as Hat.
        rewrite <- Hend in Hat at 2.
        split_tests; lia.
      * split_tests; lia.
    + rewrite orb_false_r in Hyes. revert Hyes.
      split_tests; intro Hyes; try discriminate; lia.
Qed.

(** The three cases of mapping through a single insertion. *)
Lemma mapPos_insertion (p n len : N) (pos assoc : Z) :
  ChangeDesc.mapPos (ChangeDesc.insertion p n len) pos assoc
  = if pos <? Z.of_N p then pos
    else if (pos =? Z.of_N p) && (assoc <? 0) then pos
         else pos + Z.of_N n.
Proof.
  unfold ChangeDesc.mapPos, ChangeDesc.insertion. cbn [ChangeDesc.mapPosFrom].
  split_tests; try lia.
Qed.

(** The batch without changes maps every position to itself. *)
Lemma mapPos_empty (len : N) (pos assoc : Z) :
  ChangeDesc.mapPos (ChangeDesc.empty len) pos assoc = pos.
Proof.
  unfold ChangeDesc.mapPos, ChangeDesc.empty. cbn [ChangeDesc.mapPosFrom].
  split_tests; lia.
Qed.

(* ================================================================== *)
(** * The reducer                                                      *)
(* ================================================================== *)

Lemma Text_length_from (ls : list (list Text.CodeUnit)) :
  forall acc, acc <= fold_left (fun acc l => acc + 1 + Text.lineLength l) ls acc.
Proof.
  induction ls as [|l ls IH]; intro acc; cbn [fold_left].
  - lia.
  - specialize (IH (acc + 1 + Text.lineLength l)). unfold Text.lineLength in *. lia.
Qed.

Lemma Text_length_nonneg (d : Text.t) : 0 <= Text.length d.
Proof.
  unfold Text.length.
  pose proof (Text_length_from (Text.moreLines d) (Text.lineLength (Text.firstLine d))).
  unfold Text.lineLength in *. lia.
Qed.

Lemma clearAll_nil (value : DecorationSet) : clearAll value = [].
Proof.
  unfold clearAll, RangeSet.update. cbn.
  induction value as [|r rest IH]; cbn; auto.
Qed.

Lemma addOne_insert (r : Range.t) (value : DecorationSet) :
  addOne r value = RangeSet.insert r value.
Proof. reflexivity. Qed.

(** What one zoom-in effect leaves in the field, whatever was there. *)
Lemma processEffect_zoomIn_field (tr : Transaction) (value : DecorationSet) (v : Span) :
  let L := Text.length (newDoc tr) in
  processEffect tr value (zoomInEffect v)
  = match 0 <? from v, to v <? L with
    | true, true =>
        if to v + 1 <=? 0
        then [zoomMarkHidden_range (to v + 1) L; zoomMarkHidden_range 0 (from v - 1)]
        else [zoomMarkHidden_range 0 (from v - 1); zoomMarkHidden_range (to v + 1) L]
    | true, false => [zoomMarkHidden_range 0 (from v - 1)]
    | false, true => [zoomMarkHidden_range (to v + 1) L]
    | false, false => []
    end.
Proof.
  cbv zeta. unfold processEffect. rewrite clearAll_nil, !addOne_insert.
  destruct (0 <? from v); destruct (to v <? Text.length (newDoc tr));
    cbn [RangeSet.insert Range.from Range.to Range.value zoomMarkHidden_range];
    try reflexivity.
  unfold zoomMarkHidden, Decoration.replace, Decoration.startSide; cbn.
  split_tests; try lia; reflexivity.
Qed.

Lemma processEffect_zoomIn (tr : Transaction) (value : DecorationSet) (v : Span) :
  let L := Text.length (newDoc tr) in
  rangeSetToArray (processEffect tr value (zoomInEffect v))
  = match 0 <? from v, to v <? L with
    | true, true =>
        if to v + 1 <=? 0
        then [suffixSpan (to v) L; prefixSpan (from v)]
        else [prefixSpan (from v); suffixSpan (to v) L]
    | true, false => [prefixSpan (from v)]
    | false, true => [suffixSpan (to v) L]
    | false, false => []
    end.
Proof.
  cbv zeta. rewrite processEffect_zoomIn_field.
  destruct (0 <? from v); destruct (to v <? Text.length (newDoc tr));
    try destruct (to v + 1 <=? 0); reflexivity.
Qed.

Lemma processEffect_zoomIn_any (tr : Transaction) (v1 v2 : DecorationSet) (v : Span) :
  processEffect tr v1 (zoomInEffect v) = processEffect tr v2 (zoomInEffect v).
Proof. unfold processEffect. now rewrite !clearAll_nil. Qed.

Lemma processEffect_zoomOut (tr : Transaction) (value : DecorationSet) :
  processEffect tr value zoomOutEffect = [].
Proof. unfold processEffect. apply clearAll_nil. Qed.

Lemma update_last (value : DecorationSet) (c : ChangeDesc.t)
      (pre : list StateEffect) (e : StateEffect) (d : Text.t) :
  zoomStateField.update value (mkTransaction c (pre ++ [e]) d)
  = processEffect (mkTransaction c (pre ++ [e]) d)
      (fold_left (processEffect (mkTransaction c (pre ++ [e]) d)) pre (RangeSet.map c value)) e.
Proof.
  unfold zoomStateField.update. cbn [changes effects].
  now rewrite fold_left_app.
Qed.

(** The reducer reads of the transaction only what [processEffect] reads:
    the length of the new document. *)
Lemma processEffect_ext (tr tr' : Transaction) :
  Text.length (newDoc tr) = Text.length (newDoc tr') ->
  forall value e, processEffect tr value e = processEffect tr' value e.
Proof. intros H value e. unfold processEffect. now rewrite H. Qed.

Lemma map_empty (len : N) (value : DecorationSet) :
  RangeSet.map (ChangeDesc.empty len) value = value.
Proof.
  unfold RangeSet.map. induction value as [|[f t v] rest IH]; cbn [List.map].
  - reflexivity.
  - rewrite IH. unfold RangeSet.mapRange. cbn [Range.from Range.to Range.value].
    now rewrite !mapPos_empty.
Qed.

Lemma fold_processEffect_ext (tr tr' : Transaction) :
  Text.length (newDoc tr) = Text.length (newDoc tr') ->
  forall effs value,
    fold_left (processEffect tr) effs value = fold_left (processEffect tr') effs value.
Proof.
  intros H effs. induction effs as [|e effs IH]; intro value; cbn [fold_left].
  - reflexivity.
  - rewrite (processEffect_ext tr tr' H). apply IH.
Qed.

(** Runs a command on a world given by its components. *)
Ltac run_cmd :=
  cbv [keepOnlyZoomedContentVisible showAllContent calculateIndentLevel
       applyIndentRemoval removeIndentRemoval dispatch logger_log
       getView setView bind ret throw];
  cbn [view logged state editorEl dispatched scrollIntoView spreadOverDefault truthy].

(** C1.  A zoom-in effect processed by the reducer leaves exactly these
    segments, whatever the field held before and whatever effects came
    earlier in the transaction: the prefix segment [0, from-1) exactly
    when [from > 0] and the suffix segment [to+1, L) exactly when
    [to < L], with [L] the length of the document after the change; for
    [from = 0] and [to = L] nothing is left. *)
Theorem zoom_in_replaces_segments :
  forall (c : ChangeDesc.t) (d : Text.t) (pre : list StateEffect)
         (value : DecorationSet) (a b : Z),
    let L := Text.length d in
    let tr := mkTransaction c (pre ++ [zoomInEffect (mkSpan a b)]) d in
    let hidden := rangeSetToArray (zoomStateField.update value tr) in
    Permutation hidden
                ((if 0 <? a then [prefixSpan a] else [])
                   ++ (if b <? L then [suffixSpan b L] else []))
    /\ (In (prefixSpan a) hidden <-> 0 < a)
    /\ (In (suffixSpan b L) hidden <-> b < L)
    /\ rangeSetToArray
         (zoomStateField.update value
            (mkTransaction c (pre ++ [zoomInEffect (mkSpan 0 L)]) d)) = [].
Proof.
  intros c d pre value a b L tr hidden.
  assert (HL : 0 <= L) by apply Text_length_nonneg.
  subst hidden tr. rewrite !update_last, !processEffect_zoomIn.
  cbn [newDoc from to]. fold L.
  unfold prefixSpan, suffixSpan.
  repeat split.
  - split_tests; cbn [app]; try apply Permutation_refl; try lia. apply perm_swap.
  - split_tests; cbn [In]; intros Hin; try lia;
      repeat (destruct Hin as [Hin|Hin]; try (inversion Hin; lia)); try contradiction.
  - intro Ha. split_tests; cbn [In]; try lia; auto.
  - split_tests; cbn [In]; intros Hin; try lia;
      repeat (destruct Hin as [Hin|Hin]; try (inversion Hin; lia)); try contradiction.
  - intro Hb. split_tests; cbn [In]; try lia; auto.
  - split_tests; try lia; reflexivity.
Qed.

(** C3.  The reducer maps the field through the change batch first and
    unconditionally: with no effect the result is the mapped field, and
    with effects the result is that of applying the effects, without any
    further mapping, to the mapped field. *)
Theorem map_precedes_effects :
  forall (value : DecorationSet) (c : ChangeDesc.t) (effs : list StateEffect) (d : Text.t),
    zoomStateField.update value (mkTransaction c [] d) = RangeSet.map c value
    /\ zoomStateField.update value (mkTransaction c effs d)
       = fold_left (processEffect (mkTransaction c effs d)) effs (RangeSet.map c value)
    /\ zoomStateField.update value (mkTransaction c effs d)
       = zoomStateField.update
           (zoomStateField.update value (mkTransaction c [] d))
           (mkTransaction (ChangeDesc.empty (Z.to_N (Text.length d))) effs d).
Proof.
  intros value c effs d. repeat split.
  unfold zoomStateField.update. cbn [changes effects fold_left].
  rewrite map_empty. now apply fold_processEffect_ext.
Qed.

(** C6.  A zoom-out effect leaves the field empty whatever it held;
    zooming out of the idle state leaves it empty; and a zoom-in followed
    by any transactions and then a zoom-out ends with no hidden range.
    The command [showAllContent] always ends with no hidden range. *)
Theorem zoom_out_clears :
  forall (value : DecorationSet) (c : ChangeDesc.t) (pre : list StateEffect) (d : Text.t),
    zoomStateField.update value (mkTransaction c (pre ++ [zoomOutEffect]) d) = []
    /\ rangeSetToArray
         (zoomStateField.update zoomStateField.create
            (mkTransaction c [zoomOutEffect] d)) = []
    /\ (forall (zin : Span) (c1 : ChangeDesc.t) (d1 : Text.t) (edits : list Transaction),
           rangeSetToArray
             (runUpdates value
                (mkTransaction c1 [zoomInEffect zin] d1
                   :: edits ++ [mkTransaction c (pre ++ [zoomOutEffect]) d])) = [])
    /\ (forall w : World,
           exists w', showAllContent w = Ok tt w'
                      /\ calculateHiddenContentRanges (state (view w')) = []).
Proof.
  intros value c pre d.
  assert (Hout : forall v, zoomStateField.update v (mkTransaction c (pre ++ [zoomOutEffect]) d) = []).
  { intro v. rewrite update_last. apply processEffect_zoomOut. }
  repeat split.
  - apply Hout.
  - intros zin c1 d1 edits. unfold runUpdates. cbn [fold_left].
    rewrite fold_left_app. cbn [fold_left]. now rewrite Hout.
  - intros [[st el tr] lg].
    destruct el as [el|]; run_cmd; eexists; (split; [reflexivity|]);
      unfold calculateHiddenContentRanges, applyTransaction, zoomStateField.update;
      cbn [field changes effects fold_left]; rewrite !map_empty;
      unfold processEffect; now rewrite clearAll_nil.
Qed.

(** C7.  A zoom-in effect yields the same field from any two prior
    fields; in particular a zoom-in right after another zoom-in yields
    what it yields from the initial, empty field. *)
Theorem rezoom_overrides :
  forall (v1 v2 : DecorationSet) (c : ChangeDesc.t) (pre : list StateEffect)
         (cd : Span) (d : Text.t),
    zoomStateField.update v1 (mkTransaction c (pre ++ [zoomInEffect cd]) d)
    = zoomStateField.update v2 (mkTransaction c (pre ++ [zoomInEffect cd]) d)
    /\ (forall (ab : Span) (c1 : ChangeDesc.t) (d1 : Text.t),
           zoomStateField.update
             (zoomStateField.update v1 (mkTransaction c1 [zoomInEffect ab] d1))
             (mkTransaction c [zoomInEffect cd] d)
           = zoomStateField.update zoomStateField.create
                                   (mkTransaction c [zoomInEffect cd] d)).
Proof.
  intros v1 v2 c pre cd d. split.
  - rewrite !update_last. apply processEffect_zoomIn_any.
  - intros ab c1 d1. unfold zoomStateField.update. cbn [changes effects fold_left].
    apply processEffect_zoomIn_any.
Qed.

(* ================================================================== *)
(** * The queries after a zoom                                         *)
(* ================================================================== *)

Section AfterZoomIn.

(** A state [st], and a transaction that replaces the document by [d]
    and zooms in to the range [(a, b)] of [d]. *)
Variables (st : EditorState) (c : ChangeDesc.t) (d : Text.t) (a b : Z).
Hypothesis Hvalid : validRange a b (Text.length d).

(** The field right after the zoom-in: prefix first, suffix second. *)
Lemma field_after_zoomIn :
  field (applyTransaction st (mkTransaction c [zoomInEffect (mkSpan a b)] d))
  = (if 0 <? a then [zoomMarkHidden_range 0 (a - 1)] else [])
      ++ (if b <? Text.length d then [zoomMarkHidden_range (b + 1) (Text.length d)] else []).
Proof.
  destruct Hvalid as [[Ha Hab] Hb].
  unfold applyTransaction, zoomStateField.update.
  cbn [field changes effects fold_left].
  rewrite processEffect_zoomIn_field. cbn [newDoc from to].
  split_tests; try lia; reflexivity.
Qed.

Lemma hidden_after_zoomIn :
  calculateHiddenContentRanges
    (applyTransaction st (mkTransaction c [zoomInEffect (mkSpan a b)] d))
  = (if 0 <? a then [prefixSpan a] else [])
      ++ (if b <? Text.length d then [suffixSpan b (Text.length d)] else []).
Proof.
  unfold calculateHiddenContentRanges. rewrite field_after_zoomIn.
  split_tests; reflexivity.
Qed.

Lemma visible_after_zoomIn :
  ~ (a = 0 /\ b = Text.length d) ->
  calculateVisibleContentRange
    (applyTransaction st (mkTransaction c [zoomInEffect (mkSpan a b)] d))
  = Some (mkSpan a b).
Proof.
  intros Hnot. destruct Hvalid as [[Ha Hab] Hb].
  unfold calculateVisibleContentRange. rewrite hidden_after_zoomIn.
  unfold prefixSpan, suffixSpan.
  split_tests; cbn [app from to doc applyTransaction newDoc]; split_tests;
    try lia; f_equal; f_equal; lia.
Qed.

End AfterZoomIn.

(** C2.  Round trip through the visibility query: after a zoom-in to a
    range [0 <= from <= to <= L] other than the whole document, the
    hidden ranges are the prefix and suffix segments and the visible
    range is exactly [(from, to)]. *)
Theorem zoom_round_trip :
  forall (st : EditorState) (c : ChangeDesc.t) (d : Text.t) (a b : Z),
    validRange a b (Text.length d) ->
    ~ (a = 0 /\ b = Text.length d) ->
    let st' := applyTransaction st (mkTransaction c [zoomInEffect (mkSpan a b)] d) in
    calculateHiddenContentRanges st'
    = (if 0 <? a then [prefixSpan a] else [])
        ++ (if b <? Text.length d then [suffixSpan b (Text.length d)] else [])
    /\ calculateVisibleContentRange st' = Some (mkSpan a b).
Proof.
  intros st c d a b Hvalid Hnot st'. subst st'. split.
  - now apply hidden_after_zoomIn.
  - now apply visible_after_zoomIn.
Qed.

(** The scenario of the specification: length 50, zoom-in(10, 20). *)
Lemma zoom_round_trip_witness :
  let st' := applyTransaction (mkState (Text.filler 50) zoomStateField.create)
               (mkTransaction (ChangeDesc.empty 50) [zoomInEffect (mkSpan 10 20)]
                              (Text.filler 50)) in
  calculateHiddenContentRanges st' = [mkSpan 0 9; mkSpan 21 50]
  /\ calculateVisibleContentRange st' = Some (mkSpan 10 20).
Proof.
  apply (zoom_round_trip (mkState (Text.filler 50) zoomStateField.create)
                         (ChangeDesc.empty 50) (Text.filler 50) 10 20).
  - vm_compute. repeat split; discriminate.
  - vm_compute. intros [H _]. discriminate H.
Defined.

(** C5.  With no hidden segment, or with more than two, there is no
    visible range: the query returns [null]. *)
Theorem no_visible_range_unless_one_or_two :
  forall st : EditorState,
    (List.length (calculateHiddenContentRanges st) = 0
     \/ 2 < List.length (calculateHiddenContentRanges st))%nat ->
    calculateVisibleContentRange st = None.
Proof.
  intros st H. unfold calculateVisibleContentRange.
  destruct (calculateHiddenContentRanges st) as [|x [|y [|z rest]]];
    cbn [List.length] in H; try reflexivity; lia.
Qed.

Lemma no_visible_range_unless_one_or_two_witness :
  calculateVisibleContentRange
    (mkState (Text.filler 9)
             [zoomMarkHidden_range 0 1; zoomMarkHidden_range 3 4; zoomMarkHidden_range 6 9])
  = None
  /\ calculateVisibleContentRange (mkState (Text.filler 9) zoomStateField.create) = None.
Proof.
  split; apply no_visible_range_unless_one_or_two; cbn; lia.
Defined.

(** C10.  Zero-width segments occur: a zoom-in with [from = 1] leaves the
    empty prefix segment [0, 0) and one with [to = L - 1] the empty
    suffix segment [L, L), whatever the other bound is; for a range of
    the document they are listed among the hidden ranges like any other
    and the visible range is still exactly [(from, to)]. *)
Theorem zero_width_segments :
  forall (st : EditorState) (c : ChangeDesc.t) (d : Text.t) (a b : Z),
    let L := Text.length d in
    let st' := applyTransaction st (mkTransaction c [zoomInEffect (mkSpan a b)] d) in
    (a = 1 -> In (mkSpan 0 0) (calculateHiddenContentRanges st'))
    /\ (b = L - 1 -> In (mkSpan L L) (calculateHiddenContentRanges st'))
    /\ (validRange a b L ->
        (a = 1 ->
         calculateHiddenContentRanges st'
         = mkSpan 0 0 :: (if b <? L then [suffixSpan b L] else [])
         /\ calculateVisibleContentRange st' = Some (mkSpan a b))
        /\ (b = L - 1 ->
            calculateHiddenContentRanges st'
            = (if 0 <? a then [prefixSpan a] else []) ++ [mkSpan L L]
            /\ calculateVisibleContentRange st' = Some (mkSpan a b))).
Proof.
  intros st c d a b L st'. subst st'. split; [|split].
  - intro Ha. unfold calculateHiddenContentRanges, applyTransaction, zoomStateField.update.
    cbn [field changes effects fold_left]. rewrite processEffect_zoomIn.
    cbn [newDoc from to]. fold L. unfold prefixSpan, suffixSpan. subst a.
    split_tests; cbn [In]; try lia; auto.
  - intro Hb. unfold calculateHiddenContentRanges, applyTransaction, zoomStateField.update.
    cbn [field changes effects fold_left]. rewrite processEffect_zoomIn.
    cbn [newDoc from to]. fold L. unfold prefixSpan, suffixSpan.
    replace (b + 1) with L by lia.
    split_tests; cbn [In]; try lia; auto.
  - intro Hvalid. pose proof Hvalid as [[Ha Hab] Hb]. fold L in Hb.
    split; intro Heq; (split; [|apply visible_after_zoomIn; [assumption|fold L; lia]]);
      rewrite hidden_after_zoomIn by assumption; fold L; unfold prefixSpan, suffixSpan;
      subst; split_tests; try lia; cbn [app]; repeat f_equal; lia.
Qed.

Lemma zero_width_segments_witness :
  let st' := applyTransaction (mkState (Text.filler 3) zoomStateField.create)
               (mkTransaction (ChangeDesc.empty 3) [zoomInEffect (mkSpan 1 2)]
                              (Text.filler 3)) in
  calculateHiddenContentRanges st' = [mkSpan 0 0; mkSpan 3 3]
  /\ List.length (calculateHiddenContentRanges st') = 2%nat
  /\ calculateVisibleContentRange st' = Some (mkSpan 1 2).
Proof.
  assert (Hvalid : validRange 1 2 (Text.length (Text.filler 3)))
    by (vm_compute; repeat split; discriminate).
  pose proof (zero_width_segments (mkState (Text.filler 3) zoomStateField.create)
                (ChangeDesc.empty 3) (Text.filler 3) 1 2) as (_ & _ & Hboth).
  destruct (Hboth Hvalid) as [Hprefix Hsuffix].
  destruct (Hprefix eq_refl) as [Hhidden Hvisible].
  destruct (Hsuffix eq_refl) as [Hhidden' _].
  repeat split; assumption.
Defined.

(* ================================================================== *)
(** * Typing before the zoomed range                                   *)
(* ================================================================== *)

(** A hidden segment mapped through one insertion. *)
Lemma mapRange_insertion (p n len : N) (f t : Z) :
  RangeSet.mapRange (ChangeDesc.insertion p n len) (zoomMarkHidden_range f t)
  = zoomMarkHidden_range
      (if f <=? Z.of_N p then f else f + Z.of_N n)
      (if t <? Z.of_N p then t else t + Z.of_N n).
Proof.
  unfold RangeSet.mapRange, zoomMarkHidden_range.
  cbn [Range.from Range.to Range.value].
  rewrite !mapPos_insertion.
  unfold zoomMarkHidden, Decoration.replace, Decoration.startSide, Decoration.endSide.
  cbn [Decoration.inclusiveStart Decoration.inclusiveEnd].
  split_tests; try lia; reflexivity.
Qed.

(** The lengths of the documents before and after a single insertion. *)
Lemma insertion_lengths (p n len : N) :
  (p <= len)%N ->
  ChangeDesc.length (ChangeDesc.insertion p n len) = Z.of_N len
  /\ ChangeDesc.newLength (ChangeDesc.insertion p n len) = Z.of_N len + Z.of_N n.
Proof.
  intro Hp. unfold ChangeDesc.length, ChangeDesc.newLength, ChangeDesc.insertion.
  cbn [fold_right]. lia.
Qed.

(** C8.  Edit resilience: after a zoom-in to [(from, to)], inserting [n]
    characters at an offset strictly before [from] moves both bounds of
    the visible range by exactly [n]; its width is unchanged. *)
Theorem insertion_before_zoom_shifts_visible_range :
  forall (st : EditorState) (c : ChangeDesc.t) (d d2 : Text.t) (a b : Z) (p n : N),
    let L := Text.length d in
    validRange a b L ->
    Z.of_N p < a ->
    Text.length d2 = ChangeDesc.newLength (ChangeDesc.insertion p n (Z.to_N L)) ->
    let zoomed := applyTransaction st (mkTransaction c [zoomInEffect (mkSpan a b)] d) in
    let edited :=
      applyTransaction zoomed
        (mkTransaction (ChangeDesc.insertion p n (Z.to_N L)) [] d2) in
    calculateVisibleContentRange zoomed = Some (mkSpan a b)
    /\ calculateVisibleContentRange edited = Some (mkSpan (a + Z.of_N n) (b + Z.of_N n))
    /\ (b + Z.of_N n) - (a + Z.of_N n) = b - a.
Proof.
  intros st c d d2 a b p n L Hvalid Hp Hlen zoomed edited.
  pose proof Hvalid as [[Ha Hab] Hb].
  destruct (insertion_lengths p n (Z.to_N L)) as [_ Hnew]; [lia|].
  rewrite Hnew, Z2N.id in Hlen by lia.
  split; [|split; [|lia]].
  - apply visible_after_zoomIn; [assumption|lia].
  - subst edited zoomed.
    unfold calculateVisibleContentRange, calculateHiddenContentRanges.
    unfold applyTransaction at 1. cbn [field doc newDoc].
    unfold zoomStateField.update at 1. cbn [changes effects fold_left].
    rewrite field_after_zoomIn by assumption. fold L.
    unfold RangeSet.map. rewrite List.map_app.
    replace (0 <? a) with true by (symmetry; apply Z.ltb_lt; lia).
    cbn [List.map app]. rewrite mapRange_insertion.
    destruct (Z.ltb_spec b L) as [HbL|HbL]; cbn [List.map]; try rewrite mapRange_insertion;
      cbn [rangeSetToArray List.map zoomMarkHidden_range Range.from Range.to from to];
      split_tests; try lia; f_equal; f_equal; try lia.
    unfold applyTransaction. cbn [doc newDoc]. lia.
Qed.

(** Typing three characters right at the end of the hidden prefix of the
    zoom (10, 20) in a document of 50 characters. *)
Lemma insertion_before_zoom_shifts_visible_range_witness :
  let zoomed := applyTransaction (mkState (Text.filler 50) zoomStateField.create)
                  (mkTransaction (ChangeDesc.empty 50) [zoomInEffect (mkSpan 10 20)]
                                 (Text.filler 50)) in
  let edited := applyTransaction zoomed
                  (mkTransaction (ChangeDesc.insertion 9 3 50) [] (Text.filler 53)) in
  calculateVisibleContentRange zoomed = Some (mkSpan 10 20)
  /\ calculateVisibleContentRange edited = Some (mkSpan 13 23)
  /\ 23 - 13 = 20 - 10.
Proof.
  apply (insertion_before_zoom_shifts_visible_range
           (mkState (Text.filler 50) zoomStateField.create)
           (ChangeDesc.empty 50) (Text.filler 50) (Text.filler 53) 10 20 9 3).
  - vm_compute. repeat split; discriminate.
  - reflexivity.
  - reflexivity.
Defined.

(* ================================================================== *)
(** * Invariants of the field                                          *)
(* ================================================================== *)

Lemma ascending_two (x y : Span) : from x <= from y -> ascending [x; y].
Proof.
  intro H. unfold ascending. repeat constructor. exact H.
Qed.

Lemma ascending_short (l : list Span) : (List.length l <= 1)%nat -> ascending l.
Proof.
  destruct l as [|x [|y rest]]; cbn [List.length]; intro H;
    try lia; unfold ascending; repeat constructor.
Qed.

Lemma ascending_two_inv (x y : Span) : ascending [x; y] -> from x <= from y.
Proof.
  intro H. inversion H as [|? ? _ Hhd]; subst. now inversion Hhd; subst.
Qed.

Lemma startSide_hidden : Decoration.startSide zoomMarkHidden = -1.
Proof. reflexivity. Qed.

Lemma endSide_hidden : Decoration.endSide zoomMarkHidden = 1.
Proof. reflexivity. Qed.

Lemma kept_create : kept zoomStateField.create.
Proof.
  unfold kept, hiddenMarks. cbn. repeat split; try lia; constructor.
Qed.

Section Preservation.

Variable tr : Transaction.

(** One effect keeps the invariant. *)
Lemma processEffect_kept (value : DecorationSet) (e : StateEffect) :
  kept value -> kept (processEffect tr value e).
Proof.
  intros Hinv. destruct e as [v| | |].
  - rewrite processEffect_zoomIn_field. unfold kept, hiddenMarks.
    split_tests; cbn [List.length rangeSetToArray List.map]; repeat split;
      try lia; repeat constructor;
      cbn [Range.from Range.to zoomMarkHidden_range from]; lia.
  - rewrite processEffect_zoomOut. apply kept_create.
  - exact Hinv.
  - exact Hinv.
Qed.

Lemma fold_processEffect_kept (effs : list StateEffect) :
  forall value, kept value -> kept (fold_left (processEffect tr) effs value).
Proof.
  induction effs as [|e effs IH]; intros value Hinv; cbn [fold_left].
  - exact Hinv.
  - apply IH. now apply processEffect_kept.
Qed.

(** Mapping keeps the invariant. *)
Lemma map_kept (value : DecorationSet) :
  kept value -> kept (RangeSet.map (changes tr) value).
Proof.
  intros (Hlen & Hmarks & Hasc). unfold kept, RangeSet.map. repeat split.
  - now rewrite length_map.
  - unfold hiddenMarks in *. rewrite Forall_map. exact Hmarks.
  - destruct value as [|r1 [|r2 [|r3 rest]]]; cbn [List.length] in Hlen; try lia;
      cbn [List.map rangeSetToArray].
    + constructor.
    + apply ascending_short. cbn. lia.
    + apply ascending_two. cbn [from RangeSet.mapRange Range.from].
      cbn [rangeSetToArray List.map] in Hasc. apply ascending_two_inv in Hasc.
      cbn [from] in Hasc.
      inversion Hmarks as [|? ? Hv1 Hrest]; subst.
      inversion Hrest as [|? ? Hv2 _]; subst.
      rewrite Hv1, Hv2, startSide_hidden.
      unfold ChangeDesc.mapPos. now apply mapPosFrom_mono.
Qed.

Lemma update_kept (value : DecorationSet) :
  kept value -> kept (zoomStateField.update value tr).
Proof.
  intro Hinv. unfold zoomStateField.update.
  apply fold_processEffect_kept. now apply map_kept.
Qed.

(** One effect with an ordered range keeps the two segments apart. *)
Lemma processEffect_apart (value : DecorationSet) (e : StateEffect) :
  match e with zoomInEffect v => from v <= to v | _ => True end ->
  hiddenMarks value /\ apart value ->
  hiddenMarks (processEffect tr value e) /\ apart (processEffect tr value e).
Proof.
  intros Hord Hinv. destruct e as [v| | |].
  - rewrite processEffect_zoomIn_field. unfold hiddenMarks.
    split_tests; cbn [apart Range.from Range.to zoomMarkHidden_range]; split;
      try lia; repeat constructor; lia.
  - rewrite processEffect_zoomOut. split; constructor.
  - exact Hinv.
  - exact Hinv.
Qed.

Lemma fold_processEffect_apart (effs : list StateEffect) :
  forallb (fun e => match e with
                    | zoomInEffect v => from v <=? to v
                    | _ => true
                    end) effs = true ->
  forall value,
    hiddenMarks value /\ apart value ->
    hiddenMarks (fold_left (processEffect tr) effs value)
    /\ apart (fold_left (processEffect tr) effs value).
Proof.
  induction effs as [|e effs IH]; cbn [forallb fold_left]; intros Hord value Hinv.
  - exact Hinv.
  - apply andb_true_iff in Hord as [He Hord]. apply IH; [exact Hord|].
    apply processEffect_apart; [|exact Hinv].
    destruct e; try exact I. now apply Z.leb_le.
Qed.

(** Mapping through a batch that spares the field keeps them apart. *)
Lemma map_apart (value : DecorationSet) :
  sparesGap value (changes tr) = true ->
  hiddenMarks value /\ apart value ->
  hiddenMarks (RangeSet.map (changes tr) value) /\ apart (RangeSet.map (changes tr) value).
Proof.
  intros Hspares [Hmarks Hapart]. unfold RangeSet.map. split.
  - unfold hiddenMarks in *. rewrite Forall_map. exact Hmarks.
  - destruct value as [|r1 [|r2 [|r3 rest]]];
      cbn [List.map apart sparesGap] in *; try exact I; try contradiction.
    inversion Hmarks as [|? ? Hv1 Hrest]; subst.
    inversion Hrest as [|? ? Hv2 _]; subst.
    cbn [RangeSet.mapRange Range.from Range.to].
    rewrite Hv1, Hv2, startSide_hidden, endSide_hidden. unfold ChangeDesc.mapPos.
    apply negb_true_iff in Hspares. unfold coversGap in Hspares.
    pose proof (mapPosFrom_lower (changes tr) 0 0 (Range.to r1) 1).
    pose proof (fun Hle Hgap =>
                  mapPosFrom_spared (changes tr) 0 0 (Range.to r1) (Range.from r2)
                                    Hle Hgap Hspares).
    lia.
Qed.

Lemma update_apart (value : DecorationSet) :
  careful value tr ->
  hiddenMarks value /\ apart value ->
  hiddenMarks (zoomStateField.update value tr) /\ apart (zoomStateField.update value tr).
Proof.
  intros [Hord Hspares] Hinv. unfold zoomStateField.update.
  apply fold_processEffect_apart; [exact Hord|]. now apply map_apart.
Qed.

End Preservation.

Lemma apart_nonOverlapping (value : DecorationSet) :
  apart value -> nonOverlapping (rangeSetToArray value).
Proof.
  unfold nonOverlapping.
  destruct value as [|r1 [|r2 [|r3 rest]]]; cbn [apart rangeSetToArray List.map];
    intro H; try contradiction; repeat constructor.
  intros [x [Hx1 Hx2]]. cbn [from to] in *. lia.
Qed.

Lemma reachable_kept (value : DecorationSet) : reachable value -> kept value.
Proof.
  induction 1 as [|value tr _ IH _].
  - apply kept_create.
  - now apply update_kept.
Qed.

Lemma careful_apart (value : DecorationSet) :
  reachableCarefully value -> hiddenMarks value /\ apart value.
Proof.
  induction 1 as [|value tr _ IH Hcareful].
  - split; constructor.
  - now apply update_apart.
Qed.

(** A batch that covers the gap between two hidden segments makes their
    images overlap. *)
Lemma covered_overlap (c : ChangeDesc.t) (r1 r2 : Range.t) :
  hiddenMarks [r1; r2] ->
  Range.from r1 <= Range.to r1 ->
  0 <= Range.to r1 <= Range.from r2 ->
  Range.from r2 <= Range.to r2 ->
  coversGap c (Range.to r1) (Range.from r2) = true ->
  overlap (mkSpan (Range.from (RangeSet.mapRange c r1)) (Range.to (RangeSet.mapRange c r1)))
          (mkSpan (Range.from (RangeSet.mapRange c r2)) (Range.to (RangeSet.mapRange c r2))).
Proof.
  intros Hmarks Hr1 Hgap Hr2 Hcovers.
  inversion Hmarks as [|? ? Hv1 Hrest]; subst.
  inversion Hrest as [|? ? Hv2 _]; subst.
  unfold overlap. cbn [from to RangeSet.mapRange Range.from Range.to].
  rewrite Hv1, Hv2, startSide_hidden, endSide_hidden. unfold ChangeDesc.mapPos.
  exists (ChangeDesc.mapPosFrom c 0 0 (Range.from r2) (-1)).
  pose proof (mapPosFrom_mono c 0 0 (Range.from r1) (Range.from r2)).
  unfold coversGap in Hcovers.
  pose proof (fun Hle =>
                mapPosFrom_covered c 0 0 (Range.to r1) (Range.from r2) Hle Hcovers).
  pose proof (mapPosFrom_mono_end c 0 0 (Range.to r1) (Range.to r2)).
  lia.
Qed.

(** C4.  Every update, starting from the empty initial field, keeps at
    most two hidden segments, listed in ascending order of [from].  The
    segments do not overlap right after a zoom-in effect whose range has
    [from <= to], and they stay without overlap along every run of
    updates whose zoom-in ranges have [from <= to] and whose change
    batches do not cover the gap between the two segments (put new text
    in the place of a stretch that starts before the end of the first
    segment and ends after the start of the second, or insert new text
    exactly where the two segments touch).  Nothing less will do: a
    batch that covers the gap between two hidden segments makes them
    overlap. *)
Theorem hidden_segments_invariant :
  (forall value : DecorationSet,
      reachable value ->
      (List.length (rangeSetToArray value) <= 2)%nat
      /\ ascending (rangeSetToArray value))
  /\ (forall (value : DecorationSet) (c : ChangeDesc.t) (pre : list StateEffect)
             (d : Text.t) (a b : Z),
         a <= b ->
         nonOverlapping
           (rangeSetToArray
              (zoomStateField.update value
                 (mkTransaction c (pre ++ [zoomInEffect (mkSpan a b)]) d))))
  /\ (forall value : DecorationSet,
         reachableCarefully value -> nonOverlapping (rangeSetToArray value))
  /\ (forall (c : ChangeDesc.t) (d : Text.t) (r1 r2 : Range.t),
         hiddenMarks [r1; r2] ->
         Range.from r1 <= Range.to r1 ->
         0 <= Range.to r1 <= Range.from r2 ->
         Range.from r2 <= Range.to r2 ->
         sparesGap [r1; r2] c = false ->
         ~ nonOverlapping
             (rangeSetToArray
                (zoomStateField.update [r1; r2] (mkTransaction c [] d)))).
Proof.
  split; [|split; [|split]].
  - intros value Hreach.
    apply reachable_kept in Hreach as (Hlen & _ & Hasc). split.
    + unfold rangeSetToArray. now rewrite length_map.
    + exact Hasc.
  - intros value c pre d a b Hab.
    rewrite update_last. apply apart_nonOverlapping.
    rewrite processEffect_zoomIn_field. cbn [from to newDoc].
    split_tests; cbn [apart Range.from Range.to zoomMarkHidden_range]; try exact I; lia.
  - intros value Hreach. apply apart_nonOverlapping. now apply careful_apart.
  - intros c d r1 r2 Hmarks Hr1 Hgap Hr2 Hspares Hno.
    cbn [sparesGap] in Hspares. apply negb_false_iff in Hspares.
    unfold zoomStateField.update in Hno.
    cbn [changes effects fold_left RangeSet.map List.map rangeSetToArray] in Hno.
    inversion Hno as [|? ? Hhead _]; subst.
    inversion Hhead as [|? ? Hfirst _]; subst.
    apply Hfirst. now apply covered_overlap.
Qed.

(** The zoom (10, 20) in a document of 50 characters, then the deletion
    of [12, 15), then three characters typed at offset 4; and the same
    zoom followed by the replacement of [5, 30) by three characters,
    which covers the gap. *)
Lemma hidden_segments_invariant_witness :
  let zoom := mkTransaction (ChangeDesc.empty 50) [zoomInEffect (mkSpan 10 20)]
                            (Text.filler 50) in
  let cut := mkTransaction [ChangeDesc.Keep 12; ChangeDesc.Replace 3 0; ChangeDesc.Keep 35]
                           [] (Text.filler 47) in
  let typing := mkTransaction (ChangeDesc.insertion 4 3 47) [] (Text.filler 50) in
  let value := runUpdates zoomStateField.create [zoom; cut; typing] in
  rangeSetToArray value = [mkSpan 0 12; mkSpan 21 50]
  /\ ((List.length (rangeSetToArray value) <= 2)%nat /\ ascending (rangeSetToArray value))
  /\ nonOverlapping (rangeSetToArray value)
  /\ nonOverlapping
       (rangeSetToArray
          (zoomStateField.update value
             (mkTransaction (ChangeDesc.empty 50) ([] ++ [zoomInEffect (mkSpan 7 7)])
                            (Text.filler 50))))
  /\ ~ nonOverlapping
        (rangeSetToArray
           (zoomStateField.update
              [zoomMarkHidden_range 0 9; zoomMarkHidden_range 21 50]
              (mkTransaction
                 [ChangeDesc.Keep 5; ChangeDesc.Replace 25 3; ChangeDesc.Keep 20]
                 [] (Text.filler 28)))).
Proof.
  intros zoom cut typing value.
  destruct hidden_segments_invariant as (Hsmall & Hzoom & Hcareful & Htight).
  split; [reflexivity|]. split; [|split; [|split]].
  - apply Hsmall. subst value. unfold runUpdates. cbn [fold_left].
    repeat (apply reach_update; [|exact I]). apply reach_create.
  - apply Hcareful. subst value. unfold runUpdates. cbn [fold_left].
    repeat (apply careful_update; [|split; reflexivity]). apply careful_create.
  - apply Hzoom. lia.
  - apply Htight.
    + repeat constructor.
    + cbn. lia.
    + cbn. lia.
    + cbn. lia.
    + reflexivity.
Defined.

(** Two ways to reach overlapping segments.  A zoom-in whose range is
    reversed: in a document of 50 characters, zoom-in(10, 2) hides [0, 9)
    and [3, 50), which share offset 3.  A replacement that spans the
    whole visible range, although the zoom range was valid: after
    zoom-in(10, 20) in 50 characters, replacing [5, 30) by three
    characters leaves [0, 8) and [5, 28), which share offset 5. *)
Lemma overlapping_segments_are_reachable :
  (let value := zoomStateField.update zoomStateField.create
                  (mkTransaction (ChangeDesc.empty 50) [zoomInEffect (mkSpan 10 2)]
                                 (Text.filler 50)) in
   reachable value
   /\ rangeSetToArray value = [mkSpan 0 9; mkSpan 3 50]
   /\ overlap (mkSpan 0 9) (mkSpan 3 50)
   /\ ~ nonOverlapping (rangeSetToArray value))
  /\ (let zoom := mkTransaction (ChangeDesc.empty 50) [zoomInEffect (mkSpan 10 20)]
                                (Text.filler 50) in
      let replace := mkTransaction
                       [ChangeDesc.Keep 5; ChangeDesc.Replace 25 3; ChangeDesc.Keep 20]
                       [] (Text.filler 28) in
      let value := runUpdates zoomStateField.create [zoom; replace] in
      reachable value
      /\ rangeSetToArray value = [mkSpan 0 8; mkSpan 5 28]
      /\ overlap (mkSpan 0 8) (mkSpan 5 28)
      /\ ~ nonOverlapping (rangeSetToArray value)).
Proof.
  split.
  - intro value. repeat split.
    + apply reach_update; [apply reach_create|exact I].
    + exists 3. cbn. lia.
    + intro Hno. change (rangeSetToArray value) with [mkSpan 0 9; mkSpan 3 50] in Hno.
      inversion Hno as [|? ? Hhead _]; subst.
      inversion Hhead as [|? ? Hfirst _]; subst.
      apply Hfirst. exists 3. cbn. lia.
  - intros zoom replace value. repeat split.
    + subst value. unfold runUpdates. cbn [fold_left].
      apply reach_update; [apply reach_update; [apply reach_create|exact I]|exact I].
    + exists 5. cbn. lia.
    + intro Hno. change (rangeSetToArray value) with [mkSpan 0 8; mkSpan 5 28] in Hno.
      inversion Hno as [|? ? Hhead _]; subst.
      inversion Hhead as [|? ? Hfirst _]; subst.
      apply Hfirst. exists 5. cbn. lia.
Qed.

(* ================================================================== *)
(** * The zoom command                                                 *)
(* ================================================================== *)

Lemma lineAt_inside (d : Text.t) (pos : Z) :
  0 <= pos <= Text.length d ->
  Text.lineAt d pos = Some (Text.lineInner (Text.firstLine d) (Text.moreLines d) 0 pos).
Proof.
  intro H. unfold Text.lineAt. split_tests; try lia; reflexivity.
Qed.

Lemma lineAt_outside (d : Text.t) (pos : Z) :
  ~ 0 <= pos <= Text.length d -> Text.lineAt d pos = None.
Proof.
  intro H. unfold Text.lineAt. split_tests; try lia; reflexivity.
Qed.

Lemma skipn_past {A : Type} (l l' : list A) : skipn (List.length l) (l ++ l') = l'.
Proof.
  induction l as [|x l IH]; cbn [List.length skipn app]; auto.
Qed.

(** A transaction without changes that carries only a scroll request
    leaves the field as it is. *)
Lemma update_scroll_only (value : DecorationSet) (len : N) (y : ScrollY) (d : Text.t) :
  zoomStateField.update value
    (mkTransaction (ChangeDesc.empty len) [EditorView_scrollIntoView y] d) = value.
Proof.
  unfold zoomStateField.update. cbn [changes effects fold_left processEffect].
  apply map_empty.
Qed.

(** C9.  The zoom command checks nothing itself.  When [from] is an
    offset of the document and [to] is not negative, it issues the
    zoom-in signal with [from] and [to] exactly as given, also when
    [to < from] or [to] lies past the document, and the field is updated
    with that effect; the scroll request follows unless the option
    [scrollIntoView] is present with the value [false] or [undefined].
    When [from] is not an offset of the document the line lookup for the
    indentation raises before anything is dispatched. *)
Theorem zoom_command_forwards_its_range :
  forall (w : World) (a b : Z) (options : Options),
    let d := doc (state (view w)) in
    (0 <= a <= Text.length d ->
     0 <= b ->
     exists w',
       keepOnlyZoomedContentVisible a b options w = Ok tt w'
       /\ newlyDispatched w w'
          = zoomInEffect (mkSpan a b)
              :: match scrollIntoView options with
                 | absent | given true => [EditorView_scrollIntoView yStart]
                 | undefined | given false => []
                 end
       /\ field (state (view w'))
          = zoomStateField.update (field (state (view w)))
              (mkTransaction (ChangeDesc.empty (Z.to_N (Text.length d)))
                             [zoomInEffect (mkSpan a b)] d)
       /\ doc (state (view w')) = d)
    /\ (~ 0 <= a <= Text.length d ->
        exists w',
          keepOnlyZoomedContentVisible a b options w = Throw RangeError w'
          /\ newlyDispatched w w' = []
          /\ state (view w') = state (view w)).
Proof.
  intros [[st el tr] lg] a b [scroll] d. cbn [view state] in d. subst d. split.
  - intros Hin _. run_cmd. rewrite (lineAt_inside _ _ Hin). cbv [matchIndent].
    destruct (0 <? _); destruct el as [el|]; destruct scroll as [| |[|]];
      cbn [view logged state editorEl dispatched spreadOverDefault truthy];
      eexists; (split; [reflexivity|]);
      unfold newlyDispatched; cbn [view dispatched state field doc applyTransaction newDoc];
      rewrite <- ?app_assoc, ?skipn_past, ?update_scroll_only;
      repeat split; reflexivity.
  - intro Hout. run_cmd. rewrite (lineAt_outside _ _ Hout).
    eexists. split; [reflexivity|]. unfold newlyDispatched.
    cbn [view dispatched state]. rewrite <- (app_nil_r tr) at 2.
    rewrite skipn_past. split; reflexivity.
Qed.

(** In a document of 50 characters: an ordinary zoom, and one whose
    start is past the end of the document. *)
Lemma zoom_command_forwards_its_range_witness :
  (exists w',
      keepOnlyZoomedContentVisible 10 20 noOptions (blankWorld 50) = Ok tt w'
      /\ newlyDispatched (blankWorld 50) w'
         = [zoomInEffect (mkSpan 10 20); EditorView_scrollIntoView yStart]
      /\ calculateHiddenContentRanges (state (view w')) = [mkSpan 0 9; mkSpan 21 50])
  /\ (exists w',
         keepOnlyZoomedContentVisible 60 70 noOptions (blankWorld 50) = Throw RangeError w'
         /\ newlyDispatched (blankWorld 50) w' = []
         /\ state (view w') = state (view (blankWorld 50))).
Proof.
  split.
  - destruct (zoom_command_forwards_its_range (blankWorld 50) 10 20 noOptions)
      as [Hin _].
    destruct Hin as (w' & Hrun & Hsent & Hfield & Hdoc).
    + vm_compute. split; discriminate.
    + vm_compute. discriminate.
    + exists w'. split; [exact Hrun|]. split; [exact Hsent|].
      unfold calculateHiddenContentRanges. rewrite Hfield. reflexivity.
  - apply (zoom_command_forwards_its_range (blankWorld 50) 60 70 noOptions).
    vm_compute. intros [_ H]. apply H. reflexivity.
Defined.

(** The command does not validate: in a document of 50 characters it
    accepts the reversed range (10, 2), issues zoom-in(10, 2) unchanged
    and leaves the overlapping hidden ranges [0, 9) and [3, 50). *)
Lemma reversed_range_is_forwarded :
  (exists w',
      keepOnlyZoomedContentVisible 10 2 noOptions (blankWorld 50) = Ok tt w'
      /\ newlyDispatched (blankWorld 50) w'
         = [zoomInEffect (mkSpan 10 2); EditorView_scrollIntoView yStart]
      /\ calculateHiddenContentRanges (state (view w')) = [mkSpan 0 9; mkSpan 3 50])
  /\ ~ validRange 10 2 (Text.length (doc (state (view (blankWorld 50)))))
  /\ ~ validatesItsRange.
Proof.
  split; [|split].
  - eexists. split; [vm_compute; reflexivity|]. split; reflexivity.
  - unfold validRange. lia.
  - intro Hvalidates.
    destruct (keepOnlyZoomedContentVisible 10 2 noOptions (blankWorld 50))
      as [[] w'|e w'] eqn:Hrun; [|discriminate Hrun].
    specialize (Hvalidates (blankWorld 50) w' 10 2 noOptions Hrun (mkSpan 10 2)).
    vm_compute in Hrun. injection Hrun as <-.
    assert (Hbad : validRange 10 2 (Text.length (doc (state (view (blankWorld 50)))))).
    { apply Hvalidates. left. reflexivity. }
    unfold validRange in Hbad. cbn [from to] in Hbad. lia.
Qed.

(* ================================================================== *)
(** * Further properties of the reducer                                *)
(* ================================================================== *)

Section Effects.

Variable tr : Transaction.

Lemma fold_processEffect_noZoom (effs : list StateEffect) :
  noZoomEffect effs = true ->
  forall value, fold_left (processEffect tr) effs value = value.
Proof.
  unfold noZoomEffect.
  induction effs as [|e effs IH]; cbn [forallb fold_left]; intros Hno value.
  - reflexivity.
  - apply andb_true_iff in Hno as [He Hno]. rewrite IH by exact Hno.
    destruct e; cbn in He; try discriminate; reflexivity.
Qed.

(** A zoom effect leaves a field that does not depend on the field it
    found. *)
Lemma processEffect_zoom_any (e : StateEffect) (v1 v2 : DecorationSet) :
  isZoomEffect e = true -> processEffect tr v1 e = processEffect tr v2 e.
Proof.
  destruct e; cbn [isZoomEffect]; intro He; try discriminate.
  - apply processEffect_zoomIn_any.
  - now rewrite !processEffect_zoomOut.
Qed.

End Effects.

(** X1.  Effects other than zoom-in and zoom-out are ignored by the
    reducer: a transaction that carries none of the two only maps the
    field through its change batch. *)
Theorem non_zoom_effects_are_ignored :
  forall (value : DecorationSet) (tr : Transaction),
    noZoomEffect (effects tr) = true ->
    zoomStateField.update value tr = RangeSet.map (changes tr) value.
Proof.
  intros value tr Hno. unfold zoomStateField.update.
  now apply fold_processEffect_noZoom.
Qed.

(** A scroll request and a foreign effect travelling with an insertion
    of three characters at offset 4, in the zoom (10, 20) of 50
    characters. *)
Lemma non_zoom_effects_are_ignored_witness :
  rangeSetToArray
    (zoomStateField.update
       [zoomMarkHidden_range 0 9; zoomMarkHidden_range 21 50]
       (mkTransaction (ChangeDesc.insertion 4 3 50)
                      [EditorView_scrollIntoView yStart; otherEffect 7]
                      (Text.filler 53)))
  = [mkSpan 0 12; mkSpan 24 53].
Proof.
  rewrite (non_zoom_effects_are_ignored
             [zoomMarkHidden_range 0 9; zoomMarkHidden_range 21 50]
             (mkTransaction (ChangeDesc.insertion 4 3 50)
                            [EditorView_scrollIntoView yStart; otherEffect 7]
                            (Text.filler 53))).
  - reflexivity.
  - reflexivity.
Defined.

(** X2.  The last zoom effect of a transaction wins: whatever the field
    held, whatever the change batch, and whatever effects came before it
    or (other than zoom effects) after it, the result is what that one
    effect gives from the empty field in the new document. *)
Theorem last_zoom_effect_wins :
  forall (value : DecorationSet) (c : ChangeDesc.t)
         (pre post : list StateEffect) (e : StateEffect) (d : Text.t),
    isZoomEffect e = true ->
    noZoomEffect post = true ->
    zoomStateField.update value (mkTransaction c (pre ++ e :: post) d)
    = zoomStateField.update zoomStateField.create (effectsOnly d [e]).
Proof.
  intros value c pre post e d He Hpost.
  unfold zoomStateField.update, effectsOnly. cbn [changes effects].
  rewrite fold_left_app. cbn [fold_left].
  rewrite fold_processEffect_noZoom by exact Hpost.
  rewrite (processEffect_ext _ (mkTransaction (ChangeDesc.empty (Z.to_N (Text.length d))) [e] d))
    by reflexivity.
  now apply processEffect_zoom_any.
Qed.

(** A zoom-in, a zoom-out and another zoom-in in one transaction that
    also inserts text: only the last zoom-in counts. *)
Lemma last_zoom_effect_wins_witness :
  rangeSetToArray
    (zoomStateField.update
       [zoomMarkHidden_range 0 9; zoomMarkHidden_range 21 50]
       (mkTransaction (ChangeDesc.insertion 4 3 50)
                      ([zoomInEffect (mkSpan 1 2); zoomOutEffect]
                         ++ zoomInEffect (mkSpan 30 40) :: [otherEffect 7])
                      (Text.filler 53)))
  = [mkSpan 0 29; mkSpan 41 53].
Proof.
  rewrite (last_zoom_effect_wins
             [zoomMarkHidden_range 0 9; zoomMarkHidden_range 21 50]
             (ChangeDesc.insertion 4 3 50)
             [zoomInEffect (mkSpan 1 2); zoomOutEffect] [otherEffect 7]
             (zoomInEffect (mkSpan 30 40)) (Text.filler 53)).
  - reflexivity.
  - reflexivity.
  - reflexivity.
Defined.

(** The image of a start boundary never passes the image of an end
    boundary that lay at or after it. *)
Lemma mapPosFrom_sides (parts : ChangeDesc.t) :
  forall posA posB p q,
    p <= q ->
    ChangeDesc.mapPosFrom parts posA posB p (-1)
    <= ChangeDesc.mapPosFrom parts posA posB q 1.
Proof.
  induction parts as [|[len|len ins] rest IH]; intros posA posB p q Hpq;
    cbn [ChangeDesc.mapPosFrom].
  - lia.
  - pose proof (IH (posA + Z.of_N len) (posB + Z.of_N len) p q Hpq) as IH'.
    pose proof (mapPosFrom_lower rest (posA + Z.of_N len) (posB + Z.of_N len) q 1) as Hlow.
    split_tests; lia.
  - pose proof (IH (posA + Z.of_N len) (posB + Z.of_N ins) p q Hpq) as IH'.
    pose proof (mapPosFrom_lower rest (posA + Z.of_N len) (posB + Z.of_N ins) q 1) as Hlow.
    split_tests; lia.
Qed.

Lemma length_cons (s : ChangeDesc.Part) (rest : ChangeDesc.t) :
  ChangeDesc.length (s :: rest)
  = match s with
    | ChangeDesc.Keep len => Z.of_N len
    | ChangeDesc.Replace len _ => Z.of_N len
    end + ChangeDesc.length rest.
Proof. destruct s; reflexivity. Qed.

Lemma newLength_cons (s : ChangeDesc.Part) (rest : ChangeDesc.t) :
  ChangeDesc.newLength (s :: rest)
  = match s with
    | ChangeDesc.Keep len => Z.of_N len
    | ChangeDesc.Replace _ ins => Z.of_N ins
    end + ChangeDesc.newLength rest.
Proof. destruct s; reflexivity. Qed.

Lemma newLength_nonneg (c : ChangeDesc.t) : 0 <= ChangeDesc.newLength c.
Proof.
  induction c as [|[len|len ins] rest IH]; [cbn; lia| |];
    rewrite newLength_cons; lia.
Qed.

(** A position of the old document is mapped to a position of the new
    document. *)
Lemma mapPosFrom_upper (parts : ChangeDesc.t) :
  forall posA posB pos assoc,
    posA <= pos <= posA + ChangeDesc.length parts ->
    ChangeDesc.mapPosFrom parts posA posB pos assoc
    <= posB + ChangeDesc.newLength parts.
Proof.
  induction parts as [|[len|len ins] rest IH]; intros posA posB pos assoc Hpos;
    cbn [ChangeDesc.mapPosFrom].
  - cbn in *. lia.
  - rewrite length_cons in Hpos. rewrite newLength_cons.
    pose proof (IH (posA + Z.of_N len) (posB + Z.of_N len) pos assoc) as IH'.
    pose proof (newLength_nonneg rest) as Hnn.
    split_tests; lia.
  - rewrite length_cons in Hpos. rewrite newLength_cons.
    pose proof (IH (posA + Z.of_N len) (posB + Z.of_N ins) pos assoc) as IH'.
    pose proof (newLength_nonneg rest) as Hnn.
    split_tests; lia.
Qed.

Section Shapes.

Variable tr : Transaction.

(** One effect creates no reversed range. *)
Lemma processEffect_ordered (value : DecorationSet) (e : StateEffect) :
  Forall (fun r => Range.value r = zoomMarkHidden /\ orderedRange r) value ->
  Forall (fun r => Range.value r = zoomMarkHidden /\ orderedRange r)
         (processEffect tr value e).
Proof.
  intro Hinv. destruct e as [v| | |]; try exact Hinv.
  - rewrite processEffect_zoomIn_field. unfold orderedRange.
    split_tests; repeat constructor;
      cbn [Range.from Range.to zoomMarkHidden_range]; lia.
  - rewrite processEffect_zoomOut. constructor.
Qed.

Lemma map_ordered (value : DecorationSet) :
  Forall (fun r => Range.value r = zoomMarkHidden /\ orderedRange r) value ->
  Forall (fun r => Range.value r = zoomMarkHidden /\ orderedRange r)
         (RangeSet.map (changes tr) value).
Proof.
  intro Hinv. unfold RangeSet.map. rewrite Forall_map.
  apply (Forall_impl _ (P := fun r => Range.value r = zoomMarkHidden /\ orderedRange r));
    [|exact Hinv].
  intros r [Hmark Hord]. unfold orderedRange in *.
  cbn [RangeSet.mapRange Range.from Range.to Range.value].
  rewrite Hmark, startSide_hidden, endSide_hidden. split; [reflexivity|].
  unfold ChangeDesc.mapPos. now apply mapPosFrom_sides.
Qed.

Lemma update_ordered (value : DecorationSet) :
  Forall (fun r => Range.value r = zoomMarkHidden /\ orderedRange r) value ->
  Forall (fun r => Range.value r = zoomMarkHidden /\ orderedRange r)
         (zoomStateField.update value tr).
Proof.
  intro Hinv. unfold zoomStateField.update.
  apply map_ordered in Hinv. revert Hinv.
  generalize (RangeSet.map (changes tr) value).
  induction (effects tr) as [|e effs IH]; intros v Hv; cbn [fold_left].
  - exact Hv.
  - apply IH. now apply processEffect_ordered.
Qed.

End Shapes.

(** X3.  The reducer never holds a reversed segment: along every run of
    updates from the empty field, with any effects (reversed zoom ranges
    included) and any change batches, every hidden range has
    [from <= to]. *)
Theorem segments_are_never_reversed :
  forall value : DecorationSet,
    reachable value ->
    Forall (fun s => from s <= to s) (rangeSetToArray value).
Proof.
  intros value Hreach.
  assert (Hinv : Forall (fun r => Range.value r = zoomMarkHidden /\ orderedRange r) value).
  { induction Hreach as [|value tr _ IH _].
    - constructor.
    - now apply update_ordered. }
  unfold rangeSetToArray. rewrite Forall_map.
  apply (Forall_impl _ (P := fun r => Range.value r = zoomMarkHidden /\ orderedRange r));
    [|exact Hinv].
  intros r [_ Hord]. exact Hord.
Qed.

(** A reversed zoom-in(10, 2) in 50 characters, then the replacement of
    [1, 40) by two characters. *)
Lemma segments_are_never_reversed_witness :
  let value :=
    runUpdates zoomStateField.create
      [mkTransaction (ChangeDesc.empty 50) [zoomInEffect (mkSpan 10 2)] (Text.filler 50);
       mkTransaction [ChangeDesc.Keep 1; ChangeDesc.Replace 39 2; ChangeDesc.Keep 10]
                     [] (Text.filler 13)] in
  rangeSetToArray value = [mkSpan 0 3; mkSpan 1 13]
  /\ Forall (fun s => from s <= to s) (rangeSetToArray value).
Proof.
  intro value. split; [reflexivity|].
  apply segments_are_never_reversed. subst value. unfold runUpdates. cbn [fold_left].
  apply reach_update; [apply reach_update; [apply reach_create|exact I]|exact I].
Defined.

Section InDocument.

Variables (st : EditorState) (tr : Transaction).
Hypothesis Hfits : fits st tr.

Lemma map_inDocument (value : DecorationSet) :
  Forall (fun r => Range.value r = zoomMarkHidden
                   /\ inDocument (Text.length (doc st)) r) value ->
  Forall (fun r => Range.value r = zoomMarkHidden
                   /\ inDocument (Text.length (newDoc tr)) r)
         (RangeSet.map (changes tr) value).
Proof.
  destruct Hfits as (Hold & Hnew & _).
  intro Hinv. unfold RangeSet.map. rewrite Forall_map.
  apply (Forall_impl _ (P := fun r => Range.value r = zoomMarkHidden
                                      /\ inDocument (Text.length (doc st)) r));
    [|exact Hinv].
  intros r [Hmark (Hfrom & Hord & Hto)]. unfold inDocument.
  cbn [RangeSet.mapRange Range.from Range.to Range.value].
  rewrite Hmark, startSide_hidden, endSide_hidden. split; [reflexivity|].
  unfold ChangeDesc.mapPos.
  pose proof (mapPosFrom_lower (changes tr) 0 0 (Range.from r) (-1) Hfrom).
  pose proof (mapPosFrom_sides (changes tr) 0 0 (Range.from r) (Range.to r) Hord).
  pose proof (mapPosFrom_upper (changes tr) 0 0 (Range.to r) 1).
  lia.
Qed.

Lemma effects_inDocument (effs : list StateEffect) :
  Forall (fun e => match e with
                   | zoomInEffect v =>
                       validRange (from v) (to v) (Text.length (newDoc tr))
                   | _ => True
                   end) effs ->
  forall value,
    Forall (fun r => Range.value r = zoomMarkHidden
                     /\ inDocument (Text.length (newDoc tr)) r) value ->
    Forall (fun r => Range.value r = zoomMarkHidden
                     /\ inDocument (Text.length (newDoc tr)) r)
           (fold_left (processEffect tr) effs value).
Proof.
  induction effs as [|e effs IH]; intros Hvalid value Hinv; cbn [fold_left].
  - exact Hinv.
  - inversion Hvalid as [|? ? He Hrest]; subst. apply IH; [exact Hrest|].
    destruct e as [v| | |]; try exact Hinv.
    + destruct He as [[Ha Hab] Hb].
      rewrite processEffect_zoomIn_field. unfold inDocument.
      split_tests; repeat constructor;
        cbn [Range.from Range.to zoomMarkHidden_range]; lia.
    + rewrite processEffect_zoomOut. constructor.
Qed.

Lemma applyTransaction_inDocument :
  Forall (fun r => Range.value r = zoomMarkHidden
                   /\ inDocument (Text.length (doc st)) r) (field st) ->
  Forall (fun r => Range.value r = zoomMarkHidden
                   /\ inDocument (Text.length (doc (applyTransaction st tr))) r)
         (field (applyTransaction st tr)).
Proof.
  intro Hinv. unfold applyTransaction, zoomStateField.update. cbn [doc field].
  apply effects_inDocument; [apply Hfits|]. now apply map_inDocument.
Qed.

End InDocument.

(** X4.  Hidden segments stay inside the document: in every state
    reached from an idle state by transactions whose change batch fits
    the document and whose zoom-in ranges lie in the new document, each
    hidden range satisfies [0 <= from <= to <= len(doc)]. *)
Theorem segments_stay_in_document :
  forall st : EditorState,
    reachableState st ->
    Forall (fun s => 0 <= from s /\ from s <= to s /\ to s <= Text.length (doc st))
           (calculateHiddenContentRanges st).
Proof.
  intros st Hreach.
  assert (Hinv : Forall (fun r => Range.value r = zoomMarkHidden
                                  /\ inDocument (Text.length (doc st)) r) (field st)).
  { induction Hreach as [d|st tr _ IH Hfits].
    - constructor.
    - now apply applyTransaction_inDocument. }
  unfold calculateHiddenContentRanges, rangeSetToArray. rewrite Forall_map.
  apply (Forall_impl _ (P := fun r => Range.value r = zoomMarkHidden
                                      /\ inDocument (Text.length (doc st)) r));
    [|exact Hinv].
  intros r [_ Hin]. exact Hin.
Qed.

(** The zoom (10, 20) in 50 characters, then the deletion of [5, 45). *)
Lemma segments_stay_in_document_witness :
  let st :=
    applyTransaction
      (applyTransaction (mkState (Text.filler 50) zoomStateField.create)
         (effectsOnly (Text.filler 50) [zoomInEffect (mkSpan 10 20)]))
      (mkTransaction (deletion 5 45 50) [] (Text.filler 10)) in
  calculateHiddenContentRanges st = [mkSpan 0 5; mkSpan 5 10]
  /\ Forall (fun s => 0 <= from s /\ from s <= to s /\ to s <= Text.length (doc st))
            (calculateHiddenContentRanges st).
Proof.
  intro st. split; [reflexivity|].
  apply segments_stay_in_document. subst st.
  apply reach_apply; [apply reach_apply; [apply reach_idle|]|].
  - repeat split; try reflexivity. repeat constructor; cbn; lia.
  - repeat split; try reflexivity. constructor.
Defined.

(* ================================================================== *)
(** * Further properties of zooming and editing                        *)
(* ================================================================== *)

(** X5.  What a zoom hides: after a zoom-in to a range of the document,
    an offset of the document is hidden exactly when it lies more than
    one character before [from] or after [to]; the zoomed range and the
    character before [from] are never hidden. *)
Theorem zoom_hides_the_rest :
  forall (st : EditorState) (c : ChangeDesc.t) (d : Text.t) (a b x : Z),
    validRange a b (Text.length d) ->
    0 <= x < Text.length d ->
    let st' := applyTransaction st (mkTransaction c [zoomInEffect (mkSpan a b)] d) in
    hiddenAt (calculateHiddenContentRanges st') x <-> (x < a - 1 \/ b < x).
Proof.
  intros st c d a b x Hvalid Hx st'. subst st'.
  rewrite hidden_after_zoomIn by assumption.
  destruct Hvalid as [[Ha Hab] Hb]. unfold hiddenAt, prefixSpan, suffixSpan.
  split.
  - intros (s & Hin & Hs). revert Hin.
    split_tests; cbn [app In]; intros Hin;
      repeat (destruct Hin as [Hin|Hin]; [subst s; cbn [from to] in Hs; lia|]);
      contradiction.
  - intros [Hbefore|Hafter].
    + exists (mkSpan 0 (a - 1)). split; [|cbn [from to]; lia].
      split_tests; cbn [app In]; try lia; auto.
    + exists (mkSpan (b + 1) (Text.length d)). split; [|cbn [from to]; lia].
      split_tests; cbn [app In]; try lia; auto.
Qed.

(** In the zoom (10, 20) of 50 characters, offset 9 is not hidden and
    offset 21 is. *)
Lemma zoom_hides_the_rest_witness :
  let st' := applyTransaction (mkState (Text.filler 50) zoomStateField.create)
               (effectsOnly (Text.filler 50) [zoomInEffect (mkSpan 10 20)]) in
  (hiddenAt (calculateHiddenContentRanges st') 9 <-> (9 < 10 - 1 \/ 20 < 9))
  /\ (hiddenAt (calculateHiddenContentRanges st') 21 <-> (21 < 10 - 1 \/ 20 < 21)).
Proof.
  split;
    apply (zoom_hides_the_rest (mkState (Text.filler 50) zoomStateField.create)
             (ChangeDesc.empty (Z.to_N (Text.length (Text.filler 50))))
             (Text.filler 50) 10 20);
    vm_compute; repeat split; discriminate.
Defined.

(** X6.  Typing while zoomed: after a zoom-in to a range of the document
    (not the whole document), inserting [n] characters at any offset [p]
    of the document moves the start of the visible range by [n] when
    [p < from] and its end by [n] when [p <= to]: text typed inside the
    visible range, its two ends included, extends it, and text typed
    after it leaves it as it is. *)
Theorem insertion_while_zoomed :
  forall (st : EditorState) (c : ChangeDesc.t) (d d2 : Text.t) (a b : Z) (p n : N),
    let L := Text.length d in
    validRange a b L ->
    ~ (a = 0 /\ b = L) ->
    Z.of_N p <= L ->
    Text.length d2 = ChangeDesc.newLength (ChangeDesc.insertion p n (Z.to_N L)) ->
    let zoomed := applyTransaction st (mkTransaction c [zoomInEffect (mkSpan a b)] d) in
    let edited :=
      applyTransaction zoomed
        (mkTransaction (ChangeDesc.insertion p n (Z.to_N L)) [] d2) in
    calculateVisibleContentRange edited
    = Some (mkSpan (if Z.of_N p <? a then a + Z.of_N n else a)
                   (if Z.of_N p <=? b then b + Z.of_N n else b)).
Proof.
  intros st c d d2 a b p n L Hvalid Hnot Hp Hlen zoomed edited.
  pose proof Hvalid as [[Ha Hab] Hb]. fold L in Hb.
  destruct (insertion_lengths p n (Z.to_N L)) as [_ Hnew]; [lia|].
  rewrite Hnew, Z2N.id in Hlen by lia.
  subst edited zoomed.
  unfold calculateVisibleContentRange, calculateHiddenContentRanges.
  unfold applyTransaction at 1. cbn [field doc newDoc].
  unfold zoomStateField.update at 1. cbn [changes effects fold_left].
  rewrite field_after_zoomIn by assumption. fold L.
  unfold RangeSet.map. rewrite List.map_app.
  destruct (Z.ltb_spec 0 a) as [Ha0|Ha0]; destruct (Z.ltb_spec b L) as [HbL|HbL];
    cbn [List.map app]; rewrite ?mapRange_insertion;
    cbn [rangeSetToArray List.map zoomMarkHidden_range Range.from Range.to from to];
    try lia;
    split_tests; try lia; f_equal; f_equal; try lia;
    unfold applyTransaction; cbn [doc newDoc]; lia.
Qed.

(** Three characters typed at offset 15, inside the zoom (10, 20) of 50
    characters. *)
Lemma insertion_while_zoomed_witness :
  let zoomed := applyTransaction (mkState (Text.filler 50) zoomStateField.create)
                  (mkTransaction (ChangeDesc.empty 50) [zoomInEffect (mkSpan 10 20)]
                                 (Text.filler 50)) in
  let edited := applyTransaction zoomed
                  (mkTransaction (ChangeDesc.insertion 15 3 50) [] (Text.filler 53)) in
  calculateVisibleContentRange edited = Some (mkSpan 10 23).
Proof.
  apply (insertion_while_zoomed
           (mkState (Text.filler 50) zoomStateField.create)
           (ChangeDesc.empty 50) (Text.filler 50) (Text.filler 53) 10 20 15 3).
  - vm_compute. repeat split; discriminate.
  - vm_compute. intros [H _]. discriminate H.
  - vm_compute. discriminate.
  - reflexivity.
Defined.

(** The three cases of mapping through a single deletion. *)
Lemma mapPos_deletion (p q len : N) (pos assoc : Z) :
  (p <= q)%N -> (q <= len)%N ->
  ChangeDesc.mapPos (deletion p q len) pos assoc
  = if pos <? Z.of_N p then pos
    else if pos <? Z.of_N q then Z.of_N p
         else pos - (Z.of_N q - Z.of_N p).
Proof.
  intros Hpq Hq. unfold ChangeDesc.mapPos, deletion. cbn [ChangeDesc.mapPosFrom].
  split_tests; try lia.
Qed.

Lemma deletion_lengths (p q len : N) :
  (p <= q)%N -> (q <= len)%N ->
  ChangeDesc.length (deletion p q len) = Z.of_N len
  /\ ChangeDesc.newLength (deletion p q len) = Z.of_N len - (Z.of_N q - Z.of_N p).
Proof.
  intros Hpq Hq. unfold ChangeDesc.length, ChangeDesc.newLength, deletion.
  cbn [fold_right]. lia.
Qed.

(** X7.  Deleting while zoomed: after a zoom-in to a range of the
    document (not the whole document), deleting characters [p, q) that
    lie inside the zoomed range keeps the start of the visible range and
    moves its end back by the number of characters deleted; deleting the
    whole zoomed content leaves the empty visible range
    [(from, from)]. *)
Theorem deletion_while_zoomed :
  forall (st : EditorState) (c : ChangeDesc.t) (d d2 : Text.t) (a b : Z) (p q : N),
    let L := Text.length d in
    validRange a b L ->
    ~ (a = 0 /\ b = L) ->
    a <= Z.of_N p -> (p <= q)%N -> Z.of_N q <= b ->
    Text.length d2 = ChangeDesc.newLength (deletion p q (Z.to_N L)) ->
    let zoomed := applyTransaction st (mkTransaction c [zoomInEffect (mkSpan a b)] d) in
    let edited :=
      applyTransaction zoomed (mkTransaction (deletion p q (Z.to_N L)) [] d2) in
    calculateVisibleContentRange edited
    = Some (mkSpan a (b - (Z.of_N q - Z.of_N p))).
Proof.
  intros st c d d2 a b p q L Hvalid Hnot Hap Hpq Hqb Hlen zoomed edited.
  pose proof Hvalid as [[Ha Hab] Hb]. fold L in Hb.
  destruct (deletion_lengths p q (Z.to_N L)) as [_ Hnew]; [lia|lia|].
  rewrite Hnew, Z2N.id in Hlen by lia.
  subst edited zoomed.
  unfold calculateVisibleContentRange, calculateHiddenContentRanges.
  unfold applyTransaction at 1. cbn [field doc newDoc].
  unfold zoomStateField.update at 1. cbn [changes effects fold_left].
  rewrite field_after_zoomIn by assumption. fold L.
  unfold RangeSet.map. rewrite List.map_app.
  destruct (Z.ltb_spec 0 a) as [Ha0|Ha0]; destruct (Z.ltb_spec b L) as [HbL|HbL];
    cbn [List.map app]; unfold RangeSet.mapRange;
    cbn [rangeSetToArray List.map zoomMarkHidden_range Range.from Range.to Range.value
         from to];
    rewrite ?mapPos_deletion by lia;
    try lia;
    split_tests; try lia; f_equal; f_equal; try lia;
    unfold applyTransaction; cbn [doc newDoc]; lia.
Qed.

(** The whole content of the zoom (10, 20) of 50 characters deleted. *)
Lemma deletion_while_zoomed_witness :
  let zoomed := applyTransaction (mkState (Text.filler 50) zoomStateField.create)
                  (mkTransaction (ChangeDesc.empty 50) [zoomInEffect (mkSpan 10 20)]
                                 (Text.filler 50)) in
  let edited := applyTransaction zoomed
                  (mkTransaction (deletion 10 20 50) [] (Text.filler 40)) in
  calculateVisibleContentRange edited = Some (mkSpan 10 10).
Proof.
  apply (deletion_while_zoomed
           (mkState (Text.filler 50) zoomStateField.create)
           (ChangeDesc.empty 50) (Text.filler 50) (Text.filler 40) 10 20 10 20).
  - vm_compute. repeat split; discriminate.
  - vm_compute. intros [H _]. discriminate H.
  - vm_compute. discriminate.
  - vm_compute. discriminate.
  - vm_compute. discriminate.
  - reflexivity.
Defined.

(* ================================================================== *)
(** * Further properties of the commands                               *)
(* ================================================================== *)

(** The world a successful zoom command leaves. *)
Lemma keepOnly_inside (st : EditorState) (el : option EditorEl)
      (tr : list (list StateEffect)) (lg : list LogEntry)
      (a b : Z) (scroll : OptionalFlag) :
  0 <= a <= Text.length (doc st) ->
  let n := indentAt (doc st) a in
  keepOnlyZoomedContentVisible a b (mkOptions scroll) (mkWorld (mkView st el tr) lg)
  = Ok tt
       (mkWorld
          (mkView (applyTransaction st (effectsOnly (doc st) [zoomInEffect (mkSpan a b)]))
                  (hinted n el)
                  (tr ++ [zoomInEffect (mkSpan a b)]
                      :: match scroll with
                         | absent | given true => [[EditorView_scrollIntoView yStart]]
                         | undefined | given false => []
                         end))
          (lg ++ zoomLog a b
              :: match hinted n el, 0 <? n with
                 | Some _, true => [indentLog n]
                 | _, _ => []
                 end)).
Proof.
  intros Hin n. subst n. unfold indentAt, hinted. run_cmd.
  rewrite (lineAt_inside _ _ Hin). cbv [matchIndent].
  destruct (0 <? _); destruct el as [el|]; destruct scroll as [| |[|]];
    cbn [view logged state editorEl dispatched spreadOverDefault truthy];
    unfold applyTransaction, effectsOnly; cbn [doc field newDoc];
    rewrite ?update_scroll_only, <- ?app_assoc; reflexivity.
Qed.

(** The world [showAllContent] leaves. *)
Lemma showAll_run (st : EditorState) (el : option EditorEl)
      (tr : list (list StateEffect)) (lg : list LogEntry) :
  showAllContent (mkWorld (mkView st el tr) lg)
  = Ok tt
       (mkWorld
          (mkView (mkState (doc st) zoomStateField.create)
                  (unhinted el)
                  (tr ++ [[zoomOutEffect]; [EditorView_scrollIntoView yCenter]]))
          (lg ++ showAllLog
              :: match el with
                 | Some _ => [unindentLog]
                 | None => []
                 end)).
Proof.
  run_cmd. destruct el as [el|];
    cbn [view logged state editorEl dispatched];
    unfold applyTransaction, zoomStateField.update;
    cbn [doc field newDoc changes effects fold_left];
    rewrite !map_empty; unfold processEffect; rewrite clearAll_nil, <- ?app_assoc;
    reflexivity.
Qed.

(** X8.  The zoom command followed by the queries: after
    [keepOnlyZoomedContentVisible] with a range of the document, with or
    without the scroll request, the hidden ranges are the prefix and the
    suffix of the range, the visible range is exactly [(from, to)]
    ([null] when the range is the whole document), and the document is
    unchanged. *)
Theorem zoom_command_then_queries :
  forall (w : World) (a b : Z) (options : Options),
    let d := doc (state (view w)) in
    validRange a b (Text.length d) ->
    exists w',
      keepOnlyZoomedContentVisible a b options w = Ok tt w'
      /\ doc (state (view w')) = d
      /\ calculateHiddenContentRanges (state (view w'))
         = (if 0 <? a then [prefixSpan a] else [])
             ++ (if b <? Text.length d then [suffixSpan b (Text.length d)] else [])
      /\ calculateVisibleContentRange (state (view w'))
         = if (a =? 0) && (b =? Text.length d) then None else Some (mkSpan a b).
Proof.
  intros [[st el tr] lg] a b [scroll] d Hvalid. cbn [view state] in d. subst d.
  pose proof Hvalid as [[Ha Hab] Hb].
  eexists. split; [apply keepOnly_inside; lia|]. cbn [view state].
  unfold effectsOnly. split; [reflexivity|]. split.
  - now apply hidden_after_zoomIn.
  - destruct (Z.eqb_spec a 0) as [Ha0|Ha0]; [destruct (Z.eqb_spec b (Text.length (doc st))) as [HbL|HbL]|];
      cbn [andb]; try (apply visible_after_zoomIn; [assumption|lia]).
    unfold calculateVisibleContentRange. rewrite hidden_after_zoomIn by assumption.
    subst. split_tests; try lia. reflexivity.
Qed.

(** The zoom (10, 20) of 50 characters, without scrolling. *)
Lemma zoom_command_then_queries_witness :
  exists w',
    keepOnlyZoomedContentVisible 10 20 (mkOptions (given false)) (blankWorld 50) = Ok tt w'
    /\ doc (state (view w')) = Text.filler 50
    /\ calculateHiddenContentRanges (state (view w')) = [mkSpan 0 9; mkSpan 21 50]
    /\ calculateVisibleContentRange (state (view w')) = Some (mkSpan 10 20).
Proof.
  apply (zoom_command_then_queries (blankWorld 50) 10 20 (mkOptions (given false))).
  vm_compute. repeat split; discriminate.
Defined.

(** X9.  The indentation hint of the zoom command: with [n] the indent
    level of the line containing [from], an editor element gets the
    class and the property [n] when [n > 0]; when [n = 0] the element is
    left exactly as it was, so a hint applied by an earlier zoom stays;
    without an editor element nothing is recorded. *)
Theorem zoom_command_indent_hint :
  forall (w : World) (a b : Z) (options : Options),
    0 <= a <= Text.length (doc (state (view w))) ->
    exists w' n,
      calculateIndentLevel a w = Ok n w
      /\ keepOnlyZoomedContentVisible a b options w = Ok tt w'
      /\ editorEl (view w')
         = match editorEl (view w) with
           | Some el => if 0 <? n then Some (mkEl true (Some n)) else Some el
           | None => None
           end.
Proof.
  intros [[st el tr] lg] a b [scroll] Hin. cbn [view state] in Hin.
  eexists. exists (indentAt (doc st) a). split; [|split].
  - unfold indentAt. run_cmd. now rewrite (lineAt_inside _ _ Hin).
  - now apply keepOnly_inside.
  - cbn [view editorEl]. unfold hinted. destruct el; destruct (0 <? _); reflexivity.
Qed.

(** A zoom into an unindented line of a view whose element still carries
    the hint 4 of an earlier zoom. *)
Lemma zoom_command_indent_hint_witness :
  exists w' n,
    calculateIndentLevel 3
      (mkWorld (mkView (mkState (Text.filler 9) zoomStateField.create)
                       (Some (mkEl true (Some 4))) []) [])
    = Ok n (mkWorld (mkView (mkState (Text.filler 9) zoomStateField.create)
                            (Some (mkEl true (Some 4))) []) [])
    /\ keepOnlyZoomedContentVisible 3 6 noOptions
         (mkWorld (mkView (mkState (Text.filler 9) zoomStateField.create)
                          (Some (mkEl true (Some 4))) []) [])
       = Ok tt w'
    /\ editorEl (view w')
       = if 0 <? n then Some (mkEl true (Some n)) else Some (mkEl true (Some 4)).
Proof.
  apply (zoom_command_indent_hint
           (mkWorld (mkView (mkState (Text.filler 9) zoomStateField.create)
                            (Some (mkEl true (Some 4))) []) [])
           3 6 noOptions).
  vm_compute. split; discriminate.
Defined.

(** X10.  The zoom command sends its requests one by one: called with
    [from] an offset of the document and [to] not negative, it returns
    normally and the trace of dispatched transactions has grown by the
    transaction carrying zoom-in(from, to) alone and then, when the
    option [scrollIntoView] is absent or [true], by a second transaction
    carrying the scroll request alone; when the option is present with
    the value [false] or [undefined] no scroll request is sent.  The log
    has grown by the entry of the call and at most the entry of the
    indentation hint. *)
Theorem zoom_command_dispatches_one_by_one :
  forall (w : World) (a b : Z) (options : Options),
    0 <= a <= Text.length (doc (state (view w))) ->
    0 <= b ->
    exists w' hintLog,
      keepOnlyZoomedContentVisible a b options w = Ok tt w'
      /\ dispatched (view w')
         = dispatched (view w)
             ++ [zoomInEffect (mkSpan a b)]
             :: match scrollIntoView options with
                | absent | given true => [[EditorView_scrollIntoView yStart]]
                | undefined | given false => []
                end
      /\ logged w' = logged w ++ zoomLog a b :: hintLog
      /\ (List.length hintLog <= 1)%nat.
Proof.
  intros [[st el tr] lg] a b [scroll] Hin _. cbn [view state] in Hin.
  eexists. eexists. split; [now apply keepOnly_inside|].
  cbn [view dispatched logged scrollIntoView]. repeat split.
  destruct (hinted (indentAt (doc st) a) el);
    destruct (0 <? indentAt (doc st) a); cbn; lia.
Qed.

(** The default options, and the option explicitly [undefined]. *)
Lemma zoom_command_dispatches_one_by_one_witness :
  (exists w' hintLog,
      keepOnlyZoomedContentVisible 10 20 noOptions (blankWorld 50) = Ok tt w'
      /\ dispatched (view w')
         = [] ++ [[zoomInEffect (mkSpan 10 20)]; [EditorView_scrollIntoView yStart]]
      /\ logged w' = [] ++ zoomLog 10 20 :: hintLog
      /\ (List.length hintLog <= 1)%nat)
  /\ (exists w' hintLog,
         keepOnlyZoomedContentVisible 10 20 (mkOptions undefined) (blankWorld 50) = Ok tt w'
         /\ dispatched (view w') = [] ++ [[zoomInEffect (mkSpan 10 20)]]
         /\ logged w' = [] ++ zoomLog 10 20 :: hintLog
         /\ (List.length hintLog <= 1)%nat).
Proof.
  split.
  - apply (zoom_command_dispatches_one_by_one (blankWorld 50) 10 20 noOptions).
    + vm_compute. split; discriminate.
    + vm_compute. discriminate.
  - apply (zoom_command_dispatches_one_by_one (blankWorld 50) 10 20 (mkOptions undefined)).
    + vm_compute. split; discriminate.
    + vm_compute. discriminate.
Defined.

(** X11.  Zooming and showing all again: a successful zoom command
    followed by [showAllContent] leaves no hidden range and no visible
    range, the document unchanged, and an editor element, when there is
    one, without the class and the property, whatever the element held
    before. *)
Theorem zoom_then_show_all :
  forall (w : World) (a b : Z) (options : Options),
    0 <= a <= Text.length (doc (state (view w))) ->
    exists w',
      bind (keepOnlyZoomedContentVisible a b options) (fun _ => showAllContent) w
      = Ok tt w'
      /\ calculateHiddenContentRanges (state (view w')) = []
      /\ calculateVisibleContentRange (state (view w')) = None
      /\ doc (state (view w')) = doc (state (view w))
      /\ editorEl (view w')
         = match editorEl (view w) with
           | Some _ => Some (mkEl false None)
           | None => None
           end.
Proof.
  intros [[st el tr] lg] a b [scroll] Hin. cbn [view state] in Hin.
  unfold bind at 1. rewrite keepOnly_inside by assumption. rewrite showAll_run.
  eexists. split; [reflexivity|]. cbn [view state editorEl doc].
  repeat split.
  unfold hinted, unhinted. destruct el; destruct (0 <? _); reflexivity.
Qed.

Lemma zoom_then_show_all_witness :
  exists w',
    bind (keepOnlyZoomedContentVisible 10 20 noOptions) (fun _ => showAllContent)
         (blankWorld 50)
    = Ok tt w'
    /\ calculateHiddenContentRanges (state (view w')) = []
    /\ calculateVisibleContentRange (state (view w')) = None
    /\ doc (state (view w')) = Text.filler 50
    /\ editorEl (view w') = Some (mkEl false None).
Proof.
  apply (zoom_then_show_all (blankWorld 50) 10 20 noOptions).
  vm_compute. split; discriminate.
Defined.

(** X12.  The zoom command with a start outside the document: the call
    is logged, then the line lookup raises; the view is exactly as it
    was (nothing hidden anew, nothing dispatched, the editor element
    untouched) and the log holds the one new entry. *)
Theorem zoom_command_outside_only_logs :
  forall (w : World) (a b : Z) (options : Options),
    ~ 0 <= a <= Text.length (doc (state (view w))) ->
    keepOnlyZoomedContentVisible a b options w
    = Throw RangeError (mkWorld (view w) (logged w ++ [zoomLog a b])).
Proof.
  intros [[st el tr] lg] a b [scroll] Hout. cbn [view state] in Hout.
  run_cmd. now rewrite (lineAt_outside _ _ Hout).
Qed.

Lemma zoom_command_outside_only_logs_witness :
  keepOnlyZoomedContentVisible (-1) 20 noOptions (blankWorld 50)
  = Throw RangeError (mkWorld (view (blankWorld 50)) ([] ++ [zoomLog (-1) 20])).
Proof.
  apply (zoom_command_outside_only_logs (blankWorld 50) (-1) 20 noOptions).
  vm_compute. intros [H _]. apply H. reflexivity.
Defined.

(** X14.  [showAllContent] never raises: from any world it leaves no
    hidden range, the document unchanged, the editor element (when there
    is one) without the class and the property, and it has dispatched
    the zoom-out and then, separately, the scroll to the center. *)
Theorem show_all_content_effect :
  forall w : World,
    exists w',
      showAllContent w = Ok tt w'
      /\ field (state (view w')) = zoomStateField.create
      /\ doc (state (view w')) = doc (state (view w))
      /\ editorEl (view w')
         = match editorEl (view w) with
           | Some _ => Some (mkEl false None)
           | None => None
           end
      /\ dispatched (view w')
         = dispatched (view w) ++ [[zoomOutEffect]; [EditorView_scrollIntoView yCenter]]
      /\ exists unhintLog,
           logged w' = logged w ++ showAllLog :: unhintLog
           /\ (List.length unhintLog <= 1)%nat.
Proof.
  intros [[st el tr] lg]. eexists. split; [apply showAll_run|].
  cbn [view state field doc editorEl dispatched logged]. repeat split.
  eexists. split; [reflexivity|]. destruct el; cbn; lia.
Qed.

(** The line found for an offset of the document contains the offset. *)
Lemma lineInner_contains (rest : list (list Text.CodeUnit)) :
  forall (cur : list Text.CodeUnit) (start pos : Z),
    start <= pos
    <= fold_left (fun acc l => acc + 1 + Text.lineLength l) rest
                 (start + Text.lineLength cur) ->
    let line := Text.lineInner cur rest start pos in
    Text.lineFrom line <= pos <= Text.lineTo line
    /\ Text.lineTo line = Text.lineFrom line + Text.lineLength (Text.text line)
    /\ In (Text.text line) (cur :: rest).
Proof.
  induction rest as [|next rest IH]; intros cur start pos Hpos;
    cbn [Text.lineInner fold_left] in *.
  - cbn [Text.lineFrom Text.lineTo Text.text In]. repeat split; auto; lia.
  - destruct (Z.leb_spec pos (start + Text.lineLength cur)) as [Hle|Hgt].
    + cbn [Text.lineFrom Text.lineTo Text.text In]. repeat split; auto; lia.
    + destruct (IH next (start + Text.lineLength cur + 1) pos) as (Hin & Hto & Hmem).
      * lia.
      * repeat split; try apply Hin; try exact Hto. right. exact Hmem.
Qed.

(** The white space counted is the longest white-space prefix. *)
Lemma leadingWhiteSpace_longest (s : list Text.CodeUnit) :
  exists rest,
    s = leadingWhiteSpace s ++ rest
    /\ Forall (fun c => isWhiteSpace c = true) (leadingWhiteSpace s)
    /\ match rest with
       | [] => True
       | c :: _ => isWhiteSpace c = false
       end.
Proof.
  induction s as [|c s (rest & Heq & Hall & Hnext)]; cbn [leadingWhiteSpace].
  - exists []. repeat split. constructor.
  - destruct (isWhiteSpace c) eqn:Hc.
    + exists rest. cbn [app]. repeat split.
      * now rewrite <- Heq.
      * now constructor.
      * exact Hnext.
    + exists (c :: s). repeat split; [constructor|exact Hc].
Qed.

(** X13.  The indent level: for an offset of the document,
    [calculateIndentLevel] changes nothing and returns the length of the
    longest prefix of white-space code units of the line that contains
    the offset: the line's text is that prefix followed by nothing or by
    a code unit that is not white space. *)
Theorem indent_level_counts_leading_white_space :
  forall (w : World) (pos : Z),
    let d := doc (state (view w)) in
    0 <= pos <= Text.length d ->
    exists line spaces rest,
      Text.lineAt d pos = Some line
      /\ Text.lineFrom line <= pos <= Text.lineTo line
      /\ In (Text.text line) (Text.firstLine d :: Text.moreLines d)
      /\ Text.text line = spaces ++ rest
      /\ Forall (fun c => isWhiteSpace c = true) spaces
      /\ match rest with
         | [] => True
         | c :: _ => isWhiteSpace c = false
         end
      /\ calculateIndentLevel pos w = Ok (Z.of_nat (List.length spaces)) w.
Proof.
  intros [[st el tr] lg] pos d Hin. cbn [view state] in d. subst d.
  pose proof (lineAt_inside _ _ Hin) as Hline.
  destruct (lineInner_contains (Text.moreLines (doc st)) (Text.firstLine (doc st)) 0 pos)
    as (Hcontains & _ & Hmem).
  { unfold Text.length in Hin. rewrite Z.add_0_l. exact Hin. }
  destruct (leadingWhiteSpace_longest
              (Text.text (Text.lineInner (Text.firstLine (doc st))
                                         (Text.moreLines (doc st)) 0 pos)))
    as (rest & Heq & Hall & Hnext).
  eexists. eexists. exists rest.
  split; [exact Hline|]. split; [exact Hcontains|]. split; [exact Hmem|].
  split; [exact Heq|]. split; [exact Hall|]. split; [exact Hnext|].
  run_cmd. rewrite Hline. reflexivity.
Qed.

(** The second line of a three-line document starts with one tab. *)
Lemma indent_level_counts_leading_white_space_witness :
  let d := Text.mk [32; 32; 97]%N [[9; 98]%N; []] in
  let w := mkWorld (mkView (mkState d zoomStateField.create) None []) [] in
  exists line spaces rest,
    Text.lineAt d 5 = Some line
    /\ Text.lineFrom line <= 5 <= Text.lineTo line
    /\ In (Text.text line) (Text.firstLine d :: Text.moreLines d)
    /\ Text.text line = spaces ++ rest
    /\ Forall (fun c => isWhiteSpace c = true) spaces
    /\ match rest with
       | [] => True
       | c :: _ => isWhiteSpace c = false
       end
    /\ calculateIndentLevel 5 w = Ok (Z.of_nat (List.length spaces)) w.
Proof.
  intros d w.
  apply (indent_level_counts_leading_white_space w 5).
  vm_compute. split; discriminate.
Defined.
